(** * stream-tester: geo-selection, process exit and the VOD tester

    A shallow embedding of the parts of
    [cmd/recordtester/recordtester.go] and
    [internal/app/vodtester/vodtester_app.go] that the specification's
    testable properties talk about, followed by the theorems that settle
    those properties against the code. *)

From Stdlib Require Import Reals Lra.
From stdpp Require Import gmap strings list sorting pretty.
From Stdlib Require Import ZArith Lia Ascii.

(** ** The [float64] values of the model

    Go's [float64] is modelled by the real numbers it approximates, extended
    with the two infinities and NaN.  Arithmetic on numbers is exact: rounding,
    overflow to an infinity and the sign of zero are not modelled.  NaN and
    the infinities behave as IEEE 754 prescribes, which is what the ordering
    of candidates depends on. *)

Inductive float64 : Type :=
| FNum (r : R)
| FPosInf
| FNegInf
| FNaN.

(** The sign of a real number, as the special cases of the operations below
    need it. *)
Definition Rsign (r : R) : comparison :=
  match total_order_T r 0 with
  | inleft (left _) => Lt
  | inleft (right _) => Eq
  | inright _ => Gt
  end.

Definition fneg (x : float64) : float64 :=
  match x with
  | FNum r => FNum (- r)
  | FPosInf => FNegInf
  | FNegInf => FPosInf
  | FNaN => FNaN
  end.

Definition fadd (x y : float64) : float64 :=
  match x, y with
  | FNaN, _ | _, FNaN => FNaN
  | FNum a, FNum b => FNum (a + b)
  | FPosInf, FNegInf | FNegInf, FPosInf => FNaN
  | FPosInf, _ | _, FPosInf => FPosInf
  | FNegInf, _ | _, FNegInf => FNegInf
  end.

Definition fsub (x y : float64) : float64 := fadd x (fneg y).

(** An infinity times a number: the signs multiply, and zero gives NaN. *)
Definition finf_mul (positive : bool) (r : R) : float64 :=
  match Rsign r with
  | Gt => if positive then FPosInf else FNegInf
  | Lt => if positive then FNegInf else FPosInf
  | Eq => FNaN
  end.

Definition fmul (x y : float64) : float64 :=
  match x, y with
  | FNaN, _ | _, FNaN => FNaN
  | FNum a, FNum b => FNum (a * b)
  | FPosInf, FNum r | FNum r, FPosInf => finf_mul true r
  | FNegInf, FNum r | FNum r, FNegInf => finf_mul false r
  | FPosInf, FPosInf | FNegInf, FNegInf => FPosInf
  | FPosInf, FNegInf | FNegInf, FPosInf => FNegInf
  end.

(** Division; a zero divisor is taken as +0. *)
Definition fdiv (x y : float64) : float64 :=
  match x, y with
  | FNaN, _ | _, FNaN => FNaN
  | FNum a, FNum b =>
      match Rsign b with
      | Eq => finf_mul true a
      | _ => FNum (a / b)
      end
  | FNum _, (FPosInf | FNegInf) => FNum 0
  | FPosInf, FNum b => match Rsign b with Lt => FNegInf | _ => FPosInf end
  | FNegInf, FNum b => match Rsign b with Lt => FPosInf | _ => FNegInf end
  | (FPosInf | FNegInf), (FPosInf | FNegInf) => FNaN
  end.

(** [x <= y] on float64: false as soon as one side is NaN. *)
Definition fle (x y : float64) : bool :=
  match x, y with
  | FNaN, _ | _, FNaN => false
  | FNum a, FNum b => if Rle_dec a b then true else false
  | FNegInf, _ => true
  | _, FPosInf => true
  | FPosInf, _ => false
  | _, FNegInf => false
  end.

(** A duration that is not positive: a number that is zero or below, or
    minus infinity. NaN is neither positive nor this. *)
Definition nonPositive (d : float64) : Prop :=
  d = FNegInf \/ exists r, d = FNum r /\ (r <= 0)%R.

(** ** Package [math] *)
Module math.

Definition Pi : float64 := FNum PI.

Definition Sin (x : float64) : float64 :=
  match x with
  | FNum r => FNum (sin r)
  | _ => FNaN
  end.

Definition Cos (x : float64) : float64 :=
  match x with
  | FNum r => FNum (cos r)
  | _ => FNaN
  end.

Definition Sqrt (x : float64) : float64 :=
  match x with
  | FNum r => match Rsign r with Lt => FNaN | _ => FNum (sqrt r) end
  | FPosInf => FPosInf
  | _ => FNaN
  end.

(** The angle of the point (x, y), in (-PI, PI]. *)
Definition atan2 (y x : R) : R :=
  match Rsign x with
  | Gt => atan (y / x)
  | Lt => match Rsign y with
          | Lt => atan (y / x) - PI
          | _ => atan (y / x) + PI
          end
  | Eq => match Rsign y with
          | Gt => PI / 2
          | Lt => - (PI / 2)
          | Eq => 0
          end
  end.

Definition Atan2 (y x : float64) : float64 :=
  match y, x with
  | FNaN, _ | _, FNaN => FNaN
  | FNum a, FNum b => FNum (atan2 a b)
  | FNum _, FPosInf => FNum 0
  | FNum a, FNegInf => match Rsign a with Lt => FNum (- PI) | _ => FNum PI end
  | FPosInf, FPosInf => FNum (PI / 4)
  | FNegInf, FPosInf => FNum (- (PI / 4))
  | FPosInf, FNegInf => FNum (3 * PI / 4)
  | FNegInf, FNegInf => FNum (- (3 * PI / 4))
  | FPosInf, FNum _ => FNum (PI / 2)
  | FNegInf, FNum _ => FNum (- (PI / 2))
  end.

End math.

(** ** [cmd/recordtester]: distance between two points *)

(** Earth's radius in kilometers. *)
Definition earthRadius : float64 := FNum 6371.

Definition getDistance (lat1 lon1 lat2 lon2 : float64) : float64 :=
  (* convert to radians *)
  let lat1 := fdiv (fmul lat1 math.Pi) (FNum 180) in
  let lon1 := fdiv (fmul lon1 math.Pi) (FNum 180) in
  let lat2 := fdiv (fmul lat2 math.Pi) (FNum 180) in
  let lon2 := fdiv (fmul lon2 math.Pi) (FNum 180) in
  (* haversine formula *)
  let a :=
    fadd (fmul (math.Sin (fsub lat2 lat1)) (math.Sin (fsub lat2 lat1)))
         (fmul (fmul (fmul (math.Cos lat1) (math.Cos lat2))
                     (math.Sin (fsub lon2 lon1)))
               (math.Sin (fsub lon2 lon1))) in
  let c := fmul (FNum 2) (math.Atan2 (math.Sqrt a) (math.Sqrt (fsub (FNum 1) a))) in
  let distance := fmul earthRadius c in
  distance.

(** The formula of the specification, for numbers: half-angle sines. *)
Definition haversine_spec (lat1 lon1 lat2 lon2 : R) : R :=
  let lat1 := (lat1 * PI / 180)%R in
  let lon1 := (lon1 * PI / 180)%R in
  let lat2 := (lat2 * PI / 180)%R in
  let lon2 := (lon2 * PI / 180)%R in
  let a := (Rsqr (sin ((lat2 - lat1) / 2))
            + cos lat1 * cos lat2 * Rsqr (sin ((lon2 - lon1) / 2)))%R in
  (2 * 6371 * math.atan2 (sqrt a) (sqrt (1 - a)))%R.

(** The conversion to radians that [getDistance] applies to each of its four
    arguments, and the two halves of its body; the proofs reason on these. *)
Definition radians (x : float64) : float64 := fdiv (fmul x math.Pi) (FNum 180).

Definition hav_a (lat1 lon1 lat2 lon2 : float64) : float64 :=
  fadd (fmul (math.Sin (fsub lat2 lat1)) (math.Sin (fsub lat2 lat1)))
       (fmul (fmul (fmul (math.Cos lat1) (math.Cos lat2))
                   (math.Sin (fsub lon2 lon1)))
             (math.Sin (fsub lon2 lon1))).

Definition hav_d (a : float64) : float64 :=
  fmul earthRadius
       (fmul (FNum 2) (math.Atan2 (math.Sqrt a) (math.Sqrt (fsub (FNum 1) a)))).

(** ** Go [error] values *)

Inductive error : Type :=
| context_Canceled                          (* context.Canceled *)
| errorString (msg : string)                (* errors.New, fmt.Errorf without %w *)
| wrapError (msg : string) (err : error).   (* fmt.Errorf with %w: text and wrapped error *)

(** The [Error()] method. *)
Definition Error (e : error) : string :=
  match e with
  | context_Canceled => "context canceled"
  | errorString msg => msg
  | wrapError msg _ => msg
  end.

(** [fmt.Errorf(prefix + "%w", err)] *)
Definition Errorf_w (prefix : string) (err : error) : error :=
  wrapError (prefix +:+ Error err) err.

(** [err != context.Canceled] compares interface values: only the sentinel
    itself is equal to it, a wrapped one or [nil] is not. *)
Definition is_context_Canceled (err : option error) : bool :=
  match err with
  | Some context_Canceled => true
  | _ => false
  end.

(** The verb [%v] applied to an [error] that may be [nil]. *)
Definition fmt_v (err : option error) : string :=
  match err with
  | Some e => Error e
  | None => "<nil>"
  end.

(** ** Package [sort]

    [sort.Slice] on at most twelve elements is the insertion sort below; the
    Go library runs it as the base case of its quicksort on longer slices.
    The model is that insertion sort at every length. [less] is applied to the
    elements, which is what the closure of the caller reads at the indices it
    is given. *)
Module sort.
Section Slice.
Context {A : Type} (less : A -> A -> bool).

(** One pass of the inner loop: [x] is [data[i]], the list holds
    [data[i-1]], ..., [data[0]] in that order; [x] moves left while
    [less(data[j], data[j-1])]. The result is in the same reversed
    order. *)
Fixpoint insertLeft (x : A) (before : list A) : list A :=
  match before with
  | [] => [x]
  | y :: rest => if less x y then y :: insertLeft x rest else x :: y :: rest
  end.

Definition insertionSort (data : list A) : list A :=
  rev (fold_left (fun before x => insertLeft x before) data []).

Definition Slice (data : list A) : list A := insertionSort data.
End Slice.
End sort.

(** ** Package [strconv] *)
Module strconv.

(** The [Err] field of the [*NumError] that [ParseFloat] returns. *)
Inductive NumError : Type := ErrSyntax | ErrRange.

Definition digit_of (c : ascii) : option N :=
  let n := N_of_ascii c in
  if ((48 <=? n) && (n <=? 57))%N then Some (n - 48)%N else None.

(** Reads decimal digits with at most one point: the digits read so far as
    a number, how many of them followed the point, and whether a point and
    a digit were seen. [None] on any other character. *)
Fixpoint readDigits (s : string) (mant : N) (frac : nat) (sawdot sawdigits : bool)
  : option (N * nat) :=
  match s with
  | EmptyString => if sawdigits then Some (mant, frac) else None
  | String c rest =>
      if Ascii.eqb c "."%char then
        if sawdot then None else readDigits rest mant frac true sawdigits
      else
        match digit_of c with
        | Some d =>
            readDigits rest (10 * mant + d)%N (if sawdot then S frac else frac)
                       sawdot true
        | None => None
        end
  end.

Definition lower (c : ascii) : ascii :=
  let n := N_of_ascii c in
  if ((65 <=? n) && (n <=? 90))%N then ascii_of_N (n + 32) else c.

Fixpoint lowerString (s : string) : string :=
  match s with
  | EmptyString => EmptyString
  | String c rest => String (lower c) (lowerString rest)
  end.

(** The names of the special values, matched without regard to case. *)
Definition special (s : string) : option float64 :=
  let l := lowerString s in
  if (String.eqb l "inf" || String.eqb l "+inf" || String.eqb l "infinity"
      || String.eqb l "+infinity")%bool then Some FPosInf
  else if (String.eqb l "-inf" || String.eqb l "-infinity")%bool then Some FNegInf
  else if String.eqb l "nan" then Some FNaN
  else None.

Definition decimal (negative : bool) (mant : N) (frac : nat) : float64 :=
  let v := (IZR (Z.of_N mant) / 10 ^ frac)%R in
  FNum (if negative then (- v)%R else v).

(** [strconv.ParseFloat(s, 64)] on the part of its grammar that the examples
    of this development use: the special names, and an optional sign
    followed by decimal digits with an optional point. A malformed string
    gives 0 and [ErrSyntax]. Exponents, hexadecimal mantissas, underscores
    between digits and overflow to an infinity are outside this part: Go
    accepts them, this model reports [ErrSyntax]. The statements about
    [getClosestSerfNodes] hold for every parser and use this one only at
    concrete inputs. *)
Definition ParseFloat (s : string) : float64 * option NumError :=
  match special s with
  | Some f => (f, None)
  | None =>
      let '(negative, body) :=
        match s with
        | String "+"%char rest => (false, rest)
        | String "-"%char rest => (true, rest)
        | _ => (false, s)
        end in
      match readDigits body 0%N 0%nat false false with
      | Some (mant, frac) => (decimal negative mant frac, None)
      | None => (FNum 0, Some ErrSyntax)
      end
  end.

End strconv.

(** ** [cmd/recordtester]: the closest serf nodes *)

(** [serfClient.Member], with the fields that tell members apart; the
    selection reads [Tags] only. *)
Record Member : Type := {
  Name : string;
  Tags : gmap string string;
}.

Record geolocateSerfNodes : Type := {
  Key : string;
  Latitude : float64;
  Longitude : float64;
  Distance : float64;
  Nodes : list Member;
}.

(** Reading a Go map at a key it does not hold gives the empty string. *)
Definition tag (member : Member) (k : string) : string :=
  default "" (Tags member !! k).

Fixpoint findInSlice_from (i : Z) (slice : list geolocateSerfNodes) (key : string) : Z :=
  match slice with
  | [] => (-1)%Z
  | v :: rest =>
      if String.eqb (Key v) key then i else findInSlice_from (i + 1)%Z rest key
  end.

Definition findInSlice (slice : list geolocateSerfNodes) (key : string) : Z :=
  findInSlice_from 0%Z slice key.

Definition getMemberLocation (member : Member) : string * string :=
  (tag member "latitude", tag member "longitude").

(** [fmt.Sprintf("%s-%s", x, y)] *)
Definition locationKey (x y : string) : string := x +:+ "-" +:+ y.

(** [slice[index]]: outside the slice the Go run time panics, here [None]. *)
Definition at_index {A : Type} (slice : list A) (index : Z) : option A :=
  if (index <? 0)%Z then None else slice !! Z.to_nat index.

Definition withNode (node : geolocateSerfNodes) (member : Member) : geolocateSerfNodes :=
  {| Key := Key node;
     Latitude := Latitude node;
     Longitude := Longitude node;
     Distance := Distance node;
     Nodes := Nodes node ++ [member] |}.

Section GetClosestSerfNodes.

(** [strconv.ParseFloat(s, 64)]: the value and the error it returns. *)
Variable ParseFloat : string -> float64 * option strconv.NumError.

(** The body of the first loop, for one member. [None] is a panic. *)
Definition addMember (lat long : float64)
    (nodeDistances : list geolocateSerfNodes) (member : Member)
  : option (list geolocateSerfNodes) :=
  let '(x2, y2) := getMemberLocation member in
  let key := locationKey x2 y2 in
  let index := findInSlice nodeDistances key in
  if (index =? -1)%Z then
    let lat2 := fst (ParseFloat x2) in
    let long2 := fst (ParseFloat y2) in
    let distance := getDistance lat long lat2 long2 in
    let node := {| Key := key;
                   Latitude := lat2;
                   Longitude := long2;
                   Distance := distance;
                   Nodes := [member] |} in
    Some (nodeDistances ++ [node])
  else
    node ← at_index nodeDistances index;
    Some (<[Z.to_nat index := withNode node member]> nodeDistances).

Fixpoint addMembers (lat long : float64)
    (nodeDistances : list geolocateSerfNodes) (serfMembers : list Member)
  : option (list geolocateSerfNodes) :=
  match serfMembers with
  | [] => Some nodeDistances
  | member :: rest =>
      nodeDistances' ← addMember lat long nodeDistances member;
      addMembers lat long nodeDistances' rest
  end.

(** The comparison handed to [sort.Slice]. *)
Definition lessDistance (i j : geolocateSerfNodes) : bool :=
  fle (Distance i) (Distance j).

(** The second loop; its argument is [nodeDistances[index:]]. *)
Fixpoint selectNodes (selectNodeCount : Z) (returnMembers : list Member)
    (nodeDistances : list geolocateSerfNodes) : list Member :=
  match nodeDistances with
  | [] => returnMembers
  | node :: rest =>
      if (Z.of_nat (length returnMembers) <? selectNodeCount)%Z
      then selectNodes selectNodeCount (returnMembers ++ Nodes node) rest
      else returnMembers
  end.

(** The groups as the first loop leaves them, before sorting. *)
Definition nodeDistancesOf (serfMembers : list Member) (lat long : float64)
  : option (list geolocateSerfNodes) :=
  addMembers lat long [] serfMembers.

(** A nil slice is the empty list, for the argument and for the result. *)
Definition getClosestSerfNodes (serfMembers : list Member) (selectNodeCount : Z)
    (lat long : float64) : option (list Member) :=
  nodeDistances ← nodeDistancesOf serfMembers lat long;
  let nodeDistances := sort.Slice lessDistance nodeDistances in
  Some (selectNodes selectNodeCount [] nodeDistances).

(** The distance from the origin to where a member's tags place it. *)
Definition memberDistance (lat long : float64) (member : Member) : float64 :=
  let '(x2, y2) := getMemberLocation member in
  getDistance lat long (fst (ParseFloat x2)) (fst (ParseFloat y2)).

End GetClosestSerfNodes.

Definition memberKey (member : Member) : string :=
  let '(x2, y2) := getMemberLocation member in locationKey x2 y2.

Definition hasKey (key : string) (member : Member) : bool :=
  String.eqb (memberKey member) key.

(** *** What the claims about the selection say *)

(** The returned list is in order of distance: of two members, the earlier
    one is not farther away. Members whose distance is NaN are left out of the
    comparison. *)
Definition orderedByDistance (ParseFloat : string -> float64 * option strconv.NumError)
    (lat long : float64) (r : list Member) : Prop :=
  forall (i j : nat) (a b : Member),
    (i < j)%nat -> r !! i = Some a -> r !! j = Some b ->
    memberDistance ParseFloat lat long a <> FNaN ->
    memberDistance ParseFloat lat long b <> FNaN ->
    fle (memberDistance ParseFloat lat long a) (memberDistance ParseFloat lat long b) = true.

(** The members with a given key are all returned, in their order, or none
    of them is. *)
Definition neverSplit (serfMembers r : list Member) : Prop :=
  forall key : string,
    List.filter (hasKey key) r = List.filter (hasKey key) serfMembers
    \/ List.filter (hasKey key) r = [].

(** The first loop keeps, for the members [seen] so far, one group per key,
    holding the members with that key in their order, with the coordinates
    and the distance of the first of them. *)
Definition groupOf (ParseFloat : string -> float64 * option strconv.NumError)
    (lat long : float64) (seen : list Member) (g : geolocateSerfNodes) : Prop :=
  Nodes g = List.filter (hasKey (Key g)) seen
  /\ exists m, head (Nodes g) = Some m
       /\ Latitude g = fst (ParseFloat (tag m "latitude"))
       /\ Longitude g = fst (ParseFloat (tag m "longitude"))
       /\ Distance g = getDistance lat long (Latitude g) (Longitude g).

Definition grouped (ParseFloat : string -> float64 * option strconv.NumError)
    (lat long : float64) (seen : list Member) (nd : list geolocateSerfNodes) : Prop :=
  NoDup (map Key nd)
  /\ Forall (groupOf ParseFloat lat long seen) nd
  /\ concat (map Nodes nd) ≡ₚ seen.

(** *** Example members *)

Definition memberAt (name latitude longitude : string) : Member :=
  {| Name := name;
     Tags := <["latitude" := latitude]> (<["longitude" := longitude]> ∅) |}.

Definition east : Member := memberAt "east" "0" "90".
Definition lost : Member := memberAt "lost" "NaN" "0".
Definition here : Member := memberAt "here" "0" "0".

(** Two members with different tags and the same key, and a third one. *)
Definition north : Member := memberAt "north" "90" "-0".
Definition dash : Member := memberAt "dash" "90-" "0".
Definition near : Member := memberAt "near" "1" "0".

(** ** [cmd/recordtester]: leaving the process *)

(** What the process has done to the outside by the time it exits. *)
Record Effects : Type := {
  removed : list string;       (* os.Remove *)
  stdout : list string;        (* fmt.Printf *)
  glog_errors : list string;   (* glog.Errorf *)
}.

Definition cleanup (fn fa : string) (w : Effects) : Effects :=
  if negb (String.eqb fn fa)
  then {| removed := removed w ++ [fn]; stdout := stdout w; glog_errors := glog_errors w |}
  else w.

Definition Printf (line : string) (w : Effects) : Effects :=
  {| removed := removed w; stdout := stdout w ++ [line]; glog_errors := glog_errors w |}.

Definition glog_Errorf (line : string) (w : Effects) : Effects :=
  {| removed := removed w; stdout := stdout w; glog_errors := glog_errors w ++ [line] |}.

(** The closure [exit] of [main]: the effects, and the code given to
    [os.Exit]. *)
Definition exit (exitCode : Z) (fn fa : string) (err : option error) (w : Effects)
  : Effects * Z :=
  let w := cleanup fn fa w in
  if negb (is_context_Canceled err) then
    let w := match err with
             | Some e => Printf ("Error: " +:+ Error e) w
             | None => w
             end in
    let w := if negb (exitCode =? 0)%Z
             then glog_Errorf ("Record test failed exitCode=" +:+ pretty exitCode
                               +:+ " err=" +:+ fmt_v err) w
             else w in
    (w, exitCode)
  else
    (w, 0%Z).

(** ** Package [strings] *)
Module strings.

(** [strings.Contains(s, substr)] *)
Fixpoint Contains (s substr : string) : bool :=
  String.prefix substr s
  || match s with
     | EmptyString => false
     | String _ rest => Contains rest substr
     end.

(** [strings.Cut(s, sep)] for a one-byte separator: the text before the
    first [sep], and the text after it when there is one. *)
Fixpoint Cut (s : string) (sep : ascii) : string * option string :=
  match s with
  | EmptyString => (EmptyString, None)
  | String c rest =>
      if Ascii.eqb c sep then (EmptyString, Some rest)
      else let '(before, after) := Cut rest sep in (String c before, after)
  end.

(** [strings.LastIndex(s, sep) != -1], with the text from the last [sep]
    on, that separator included. *)
Fixpoint fromLast (s : string) (sep : ascii) : option string :=
  match s with
  | EmptyString => None
  | String c rest =>
      match fromLast rest sep with
      | Some tail => Some tail
      | None => if Ascii.eqb c sep then Some s else None
      end
  end.

End strings.

(** ** Package [net/url] *)
Module url.

Record Userinfo : Type := {
  username : string;
  password : option string;
}.

Record URL : Type := {
  Scheme : string;
  Opaque : string;
  User : option Userinfo;
  Host : string;
  Path : string;
  RawPath : string;
  OmitHost : bool;
  ForceQuery : bool;
  RawQuery : string;
  Fragment : string;
  RawFragment : string;
}.

Definition isLetter (c : ascii) : bool :=
  let n := N_of_ascii c in
  ((97 <=? n) && (n <=? 122) || (65 <=? n) && (n <=? 90))%N.

Definition isDigit (c : ascii) : bool :=
  let n := N_of_ascii c in ((48 <=? n) && (n <=? 57))%N.

Definition oneOf (c : ascii) (chars : string) : bool :=
  strings.Contains chars (String c EmptyString).

(** The characters of the URLs that [Parse] and [String] below model:
    none of them is escaped, separates a query, a fragment or user
    information, or opens an IPv6 literal. *)
Definition plain (c : ascii) : bool := isLetter c || isDigit c || oneOf c "-._~/:".

Fixpoint allPlain (s : string) : bool :=
  match s with
  | EmptyString => true
  | String c rest => plain c && allPlain rest
  end.

Fixpoint allDigits (s : string) : bool :=
  match s with
  | EmptyString => true
  | String c rest => isDigit c && allDigits rest
  end.

(** [getScheme]: [scheme] is [rawURL[:i]], [s] is [rawURL[i:]] and [first]
    tells [i == 0]. [None] is the error "missing protocol scheme". *)
Fixpoint getScheme_at (first : bool) (scheme s rawURL : string)
  : option (string * string) :=
  match s with
  | EmptyString => Some (EmptyString, rawURL)
  | String c rest =>
      if isLetter c then getScheme_at false (scheme +:+ String c EmptyString) rest rawURL
      else if isDigit c || oneOf c "+-." then
        if first then Some (EmptyString, rawURL)
        else getScheme_at false (scheme +:+ String c EmptyString) rest rawURL
      else if Ascii.eqb c ":"%char then
        if first then None else Some (scheme, rest)
      else Some (EmptyString, rawURL)
  end.

Definition getScheme (rawURL : string) : option (string * string) :=
  getScheme_at true EmptyString rawURL rawURL.

(** [validOptionalPort] *)
Definition validOptionalPort (port : string) : bool :=
  match port with
  | EmptyString => true
  | String c rest => Ascii.eqb c ":"%char && allDigits rest
  end.

(** [parseHost] on plain text: only the port can be wrong. *)
Definition parseHost (host : string) : string + error :=
  match strings.fromLast host ":"%char with
  | Some colonPort =>
      if validOptionalPort colonPort then inl host
      else inr (errorString ("invalid port " +:+ colonPort +:+ " after host"))
  | None => inl host
  end.

Definition relative (scheme rest : string) : URL :=
  {| Scheme := scheme; Opaque := EmptyString; User := None; Host := EmptyString;
     Path := rest; RawPath := EmptyString; OmitHost := false; ForceQuery := false;
     RawQuery := EmptyString; Fragment := EmptyString; RawFragment := EmptyString |}.

(** [url.Parse] on the URLs made of plain characters: scheme, authority
    and path as the Go function splits them. Any other string is refused
    by this model, although Go parses many of them; [patchURLHost] is
    stated for every parser and meets this one only at concrete URLs. *)
Definition Parse (rawURL : string) : URL + error :=
  if negb (allPlain rawURL) then inr (errorString "not a plain URL")
  else
    match getScheme rawURL with
    | None => inr (errorString "missing protocol scheme")
    | Some (scheme, rest) =>
        let scheme := strconv.lowerString scheme in
        if negb (String.prefix "/" rest) && negb (String.eqb scheme EmptyString) then
          (* rootless paths are opaque *)
          inl {| Scheme := scheme; Opaque := rest; User := None; Host := EmptyString;
                 Path := EmptyString; RawPath := EmptyString; OmitHost := false;
                 ForceQuery := false; RawQuery := EmptyString;
                 Fragment := EmptyString; RawFragment := EmptyString |}
        else if negb (String.prefix "/" rest)
                && strings.Contains (fst (strings.Cut rest "/"%char)) ":" then
          inr (errorString "first path segment in URL cannot contain colon")
        else if (negb (String.eqb scheme EmptyString) || negb (String.prefix "///" rest))
                && String.prefix "//" rest then
          let after := String.substring 2 (String.length rest - 2) rest in
          let '(authority, path) :=
            match strings.Cut after "/"%char with
            | (authority, Some path) => (authority, String "/"%char path)
            | (authority, None) => (authority, EmptyString)
            end in
          match parseHost authority with
          | inr err => inr err
          | inl host =>
              inl {| Scheme := scheme; Opaque := EmptyString; User := None;
                     Host := host; Path := path; RawPath := EmptyString;
                     OmitHost := false; ForceQuery := false; RawQuery := EmptyString;
                     Fragment := EmptyString; RawFragment := EmptyString |}
          end
        else if negb (String.eqb scheme EmptyString) && String.prefix "/" rest then
          inl {| Scheme := scheme; Opaque := EmptyString; User := None;
                 Host := EmptyString; Path := rest; RawPath := EmptyString;
                 OmitHost := true; ForceQuery := false; RawQuery := EmptyString;
                 Fragment := EmptyString; RawFragment := EmptyString |}
        else inl (relative scheme rest)
    end.

(** The [String] method of [Userinfo], without escaping. *)
Definition userString (u : Userinfo) : string :=
  match password u with
  | Some p => username u +:+ ":" +:+ p
  | None => username u
  end.

Definition nonEmpty (s : string) : bool := negb (String.eqb s EmptyString).

Definition isSome {A : Type} (o : option A) : bool :=
  match o with Some _ => true | None => false end.

(** The [String] method of [URL] for components made of plain
    characters, which it writes without escaping. *)
Definition String (u : URL) : string :=
  let buf := if nonEmpty (Scheme u) then Scheme u +:+ ":" else EmptyString in
  let buf :=
    if nonEmpty (Opaque u) then buf +:+ Opaque u
    else
      let buf :=
        if nonEmpty (Scheme u) || nonEmpty (Host u) || isSome (User u) then
          if OmitHost u && negb (nonEmpty (Host u)) && negb (isSome (User u)) then buf
          else
            let buf :=
              if nonEmpty (Host u) || nonEmpty (Path u) || isSome (User u)
              then buf +:+ "//" else buf in
            let buf :=
              match User u with
              | Some ui => buf +:+ userString ui +:+ "@"
              | None => buf
              end in
            buf +:+ Host u
        else buf in
      let path := Path u in
      let buf :=
        if nonEmpty path && negb (String.prefix "/" path) && nonEmpty (Host u)
        then buf +:+ "/" else buf in
      let buf :=
        if negb (nonEmpty buf) && strings.Contains (fst (strings.Cut path "/"%char)) ":"
        then buf +:+ "./" else buf in
      buf +:+ path in
  let buf :=
    if ForceQuery u || nonEmpty (RawQuery u) then buf +:+ "?" +:+ RawQuery u else buf in
  if nonEmpty (Fragment u) then buf +:+ "#" +:+ Fragment u else buf.

End url.

(** ** [internal/app/vodtester]: playback check *)

(** The fields of the API client's types that [checkPlayback] reads. *)
Record AssetVideoSpec : Type := { DurationSec : float64 }.

Record Asset : Type := {
  ID : string;
  PlaybackID : string;
  VideoSpec : AssetVideoSpec;
}.

Record PlaybackInfoSource : Type := {
  Type_ : string;   (* Type *)
  Url : string;
}.

Record PlaybackInfoMeta : Type := { Source : list PlaybackInfoSource }.

Record PlaybackInfo : Type := { Meta : PlaybackInfoMeta }.

(** [m3u8] statistics: segments seen per rendition. *)
Record Stats : Type := { SegmentsNum : gmap string Z }.

(** [20 * time.Second], in nanoseconds. *)
Definition maxTimeToWaitForManifest : Z := (20 * 1000000000)%Z.

Section CheckPlayback.

(** The API client and the manifest reader, as what their calls return. *)
Variable GetAsset : string -> bool -> Asset + error.
Variable GetPlaybackInfo : string -> PlaybackInfo + error.
Variable CheckStats : string -> Z -> Z -> Stats + error.
(** [api.PlaybackInfoSourceTypeHLS] *)
Variable PlaybackInfoSourceTypeHLS : string.
(** The verb [%f], and the conversion of a [float64] to [time.Duration]. *)
Variable fmt_f : float64 -> string.
Variable Duration_of_float64 : float64 -> Z.

(** The loop over [pinfo.Meta.Source]: the URL of the first HLS source,
    empty when there is none. *)
Fixpoint hlsUrl (sources : list PlaybackInfoSource) : string :=
  match sources with
  | [] => EmptyString
  | src :: rest =>
      if String.eqb (Type_ src) PlaybackInfoSourceTypeHLS then Url src
      else hlsUrl rest
  end.

(** The duration handed to the manifest reader:
    [time.Duration(asset.VideoSpec.DurationSec * float64(time.Second))]. *)
Definition manifestDuration (asset : Asset) : Z :=
  Duration_of_float64 (fmul (DurationSec (VideoSpec asset)) (FNum 1000000000)).

(** [nil] is [None]. *)
Definition checkPlayback (assetID : string) : option error :=
  match GetAsset assetID false with
  | inr err => Some (Errorf_w "error getting asset: " err)
  | inl asset =>
      if fle (DurationSec (VideoSpec asset)) (FNum 0) then
        Some (errorString ("missing asset duration ("
                           +:+ fmt_f (DurationSec (VideoSpec asset)) +:+ ")"))
      else
        let duration := manifestDuration asset in
        match GetPlaybackInfo (PlaybackID asset) with
        | inr err => Some (Errorf_w "error getting playback info: " err)
        | inl pinfo =>
            let url := hlsUrl (Source (Meta pinfo)) in
            if String.eqb url EmptyString then
              Some (errorString "no HLS source found in playback info")
            else
              match CheckStats url duration maxTimeToWaitForManifest with
              | inr err => Some err
              | inl stats =>
                  let numRenditions := Z.of_nat (size (SegmentsNum stats)) in
                  if (numRenditions <=? 1)%Z then
                    Some (errorString "no transcoded renditions found in playlist")
                  else None
              end
        end
  end.

End CheckPlayback.

(** An asset without duration, for an example. *)
Definition zeroDurationAsset : Asset :=
  {| ID := "asset"; PlaybackID := "playback"; VideoSpec := {| DurationSec := FNum 0 |} |}.

(** ** [internal/app/vodtester]: patching the host of a URL *)

Definition withSchemeHost (u : url.URL) (scheme host : string) : url.URL :=
  {| url.Scheme := scheme;
     url.Opaque := url.Opaque u;
     url.User := url.User u;
     url.Host := host;
     url.Path := url.Path u;
     url.RawPath := url.RawPath u;
     url.OmitHost := url.OmitHost u;
     url.ForceQuery := url.ForceQuery u;
     url.RawQuery := url.RawQuery u;
     url.Fragment := url.Fragment u;
     url.RawFragment := url.RawFragment u |}.

Section PatchURLHost.

(** [url.Parse] and the [String] method of its result. *)
Variable url_Parse : string -> url.URL + error.
Variable url_String : url.URL -> string.

Definition patchURLHost (target src : string) : string :=
  match url_Parse target with
  | inr _ => target
  | inl targetURL =>
      match url_Parse src with
      | inr _ => target
      | inl srcURL =>
          let targetURL :=
            if negb (strings.Contains (url.Host targetURL) (url.Host srcURL))
            then withSchemeHost targetURL (url.Scheme srcURL) (url.Host srcURL)
            else targetURL in
          url_String targetURL
      end
  end.

End PatchURLHost.

(** ** [internal/app/vodtester]: the test session *)

(** Package [errgroup]: the first error is kept and cancels the group's
    context; [Wait] cancels it as well and returns that error. *)
Module errgroup.

Record Group : Type := {
  err : option error;   (* set once, under errOnce *)
  ctx_done : bool;      (* the context of WithContext is cancelled *)
}.

Definition WithContext (parent_done : bool) : Group :=
  {| err := None; ctx_done := parent_done |}.

(** A function started with [Go] has returned [r]. *)
Definition returned (r : option error) (g : Group) : Group :=
  match r, err g with
  | Some e, None => {| err := Some e; ctx_done := true |}
  | _, _ => g
  end.

(** [Wait], once every function has returned. *)
Definition Wait (g : Group) : Group * option error :=
  ({| err := err g; ctx_done := true |}, err g).

End errgroup.

Inductive phase : Type := UrlImport | DirectUpload | ResumableUpload.

#[global] Instance phase_eq_dec : EqDecision phase.
Proof. solve_decision. Defined.

Record Task : Type := { Task_ID : string }.

(** The three functions that [Start] hands to [eg.Go], as functions of what
    the calls they make return. *)
Definition urlImportPhase (vodImportUrl : string)
    (uploadViaUrlTester : Asset + error)
    (ExportAsset : string -> Task + error)
    (WaitTaskProcessing : Task -> option error) : option error :=
  match uploadViaUrlTester with
  | inr err =>
      Some (Errorf_w ("error importing asset from url=" +:+ vodImportUrl +:+ ": ") err)
  | inl importAsset =>
      match ExportAsset (ID importAsset) with
      | inr err =>
          Some (Errorf_w ("error exporting asset assetId=" +:+ ID importAsset +:+ ": ") err)
      | inl exportTask =>
          match WaitTaskProcessing exportTask with
          | Some err =>
              Some (Errorf_w ("error in export task taskId=" +:+ Task_ID exportTask +:+ ": ") err)
          | None => None
          end
      end
  end.

Definition directUploadPhase (directUploadTester : option error) : option error :=
  match directUploadTester with
  | Some err => Some (Errorf_w "error in direct upload task: " err)
  | None => None
  end.

Definition resumableUploadPhase (resumableUploadTester : option error) : option error :=
  match resumableUploadTester with
  | Some err => Some (Errorf_w "error in resumable upload task: " err)
  | None => None
  end.

(** What a phase can return, over everything its calls can return. *)
Inductive phaseReturns (vodImportUrl : string) : phase -> option error -> Prop :=
| returns_urlImport up ex wt :
  phaseReturns vodImportUrl UrlImport (urlImportPhase vodImportUrl up ex wt)
| returns_directUpload r :
  phaseReturns vodImportUrl DirectUpload (directUploadPhase r)
| returns_resumableUpload r :
  phaseReturns vodImportUrl ResumableUpload (resumableUploadPhase r).

(** A run of [Start]: which phases have returned and with what, the error
    group, the session's own context [vt.Ctx], whether the goroutine that
    waits on [egCtx.Done()] has made its call, and what [Start] returned. *)
Record session : Type := {
  phases : phase -> option (option error);
  eg : errgroup.Group;
  Ctx_done : bool;
  relayed : bool;
  result : option (option error);
}.

(** Modelled from the spec: [TesterApp.Cancel] of [internal/app/common], the
    "cancellation handle" of the session. It calls the [CancelFunc] that
    [NewVodTester] stored: the session's context is cancelled, and with it
    the group's context derived from it. *)
Definition Cancel (s : session) : session :=
  {| phases := phases s;
     eg := {| errgroup.err := errgroup.err (eg s); errgroup.ctx_done := true |};
     Ctx_done := true;
     relayed := relayed s;
     result := result s |}.

(** Modelled from the spec: [TesterApp.Done] of [internal/app/common], the
    "done" signal of the session: the [Done] channel of its context is
    closed. *)
Definition Done (s : session) : bool := Ctx_done s.

(** [NewVodTester] followed by the entry of [Start]: a context derived from
    [gctx], the group derived from that one, three phases running. *)
Definition started (gctx_done : bool) : session :=
  {| phases := fun _ => None;
     eg := errgroup.WithContext gctx_done;
     Ctx_done := gctx_done;
     relayed := false;
     result := None |}.

Definition phaseReturned (p : phase) (r : option error) (s : session) : session :=
  {| phases := fun q => if decide (q = p) then Some r else phases s q;
     eg := errgroup.returned r (eg s);
     Ctx_done := Ctx_done s;
     relayed := relayed s;
     result := result s |}.

Definition relay (s : session) : session :=
  let s := Cancel s in
  {| phases := phases s; eg := eg s; Ctx_done := Ctx_done s;
     relayed := true; result := result s |}.

(** [eg.Wait()] returns, [Start] returns its error, and the deferred
    [vt.Cancel()] runs. *)
Definition waitReturns (s : session) : session :=
  let '(g, err) := errgroup.Wait (eg s) in
  Cancel {| phases := phases s; eg := g; Ctx_done := Ctx_done s;
            relayed := relayed s; result := Some err |}.

Definition allReturned (s : session) : Prop := forall p, phases s p <> None.

(** The steps of a run, in any order the scheduler allows. *)
Inductive step (vodImportUrl : string) : session -> session -> Prop :=
| step_phase s p r :
  phases s p = None ->
  phaseReturns vodImportUrl p r ->
  step vodImportUrl s (phaseReturned p r s)
| step_relay s :
  errgroup.ctx_done (eg s) = true ->
  relayed s = false ->
  step vodImportUrl s (relay s)
| step_cancel s :
  (* the parent context is cancelled, or somebody calls vt.Cancel() *)
  step vodImportUrl s (Cancel s)
| step_wait s :
  allReturned s ->
  result s = None ->
  step vodImportUrl s (waitReturns s).

(** The sessions that a run of [Start] goes through. *)
Inductive reachable (vodImportUrl : string) : session -> Prop :=
| reachable_started gctx_done : reachable vodImportUrl (started gctx_done)
| reachable_step s s' :
  reachable vodImportUrl s -> step vodImportUrl s s' -> reachable vodImportUrl s'.

(** What holds of every session of a run. *)
Record sessionInv (s : session) : Prop := {
  inv_no_error :
    errgroup.err (eg s) = None -> forall p r, phases s p = Some r -> r = None;
  inv_error :
    forall e, errgroup.err (eg s) = Some e -> exists p, phases s p = Some (Some e);
  inv_error_cancels :
    errgroup.err (eg s) <> None -> errgroup.ctx_done (eg s) = true;
  inv_derived :
    Ctx_done s = true -> errgroup.ctx_done (eg s) = true;
  inv_result :
    forall r, result s = Some r ->
      r = errgroup.err (eg s) /\ allReturned s /\ Ctx_done s = true;
}.

(** An example run: the direct upload fails first, the two other phases
    then return [nil], and [Start] returns. *)
Definition boom : error := errorString "boom".

Definition failedRun : session :=
  waitReturns
    (phaseReturned ResumableUpload None
       (phaseReturned UrlImport None
          (phaseReturned DirectUpload (directUploadPhase (Some boom))
             (started false)))).


(** ** Numbers among the [float64] values *)

(** [x] is neither an infinity nor NaN. *)
Definition isNumber (x : float64) : Prop := exists r, x = FNum r.


(** ** Unwrapping errors *)

#[global] Instance error_eq_dec : EqDecision error.
Proof. solve_decision. Defined.

(** [errors.Is(err, target)] for these errors, none of which has an [Is]
    method: [err] or one of the errors it wraps equals [target]. *)
Fixpoint errors_Is (err target : error) : bool :=
  if decide (err = target) then true
  else match err with
       | wrapError _ inner => errors_Is inner target
       | _ => false
       end.

(** [e] is [cause], wrapped any number of times by [fmt.Errorf] with [%w]. *)
Inductive wrapsOf (cause : error) : error -> Prop :=
| wraps_self : wrapsOf cause cause
| wraps_more prefix e : wrapsOf cause e -> wrapsOf cause (Errorf_w prefix e).

(** ** [cmd/recordtester]: the serf members *)

Section GetSerfMembers.

(** The serf RPC client: [serfClient.NewRPCClient] and its [Members]. *)
Variable RPCClient : Type.
Variable NewRPCClient : string -> RPCClient + error.
Variable Members : RPCClient -> list Member + error.

(** The result [nil, nil] is the empty list; the log lines are left out. *)
Definition getSerfMembers (useSerf : bool) (serfRPCAddr : string) : list Member + error :=
  if negb useSerf || String.eqb serfRPCAddr EmptyString then inl []
  else
    match NewRPCClient serfRPCAddr with
    | inr err => inr err
    | inl rpcClient =>
        match Members rpcClient with
        | inr err => inr err
        | inl members => inl members
        end
    end.

End GetSerfMembers.

(** ** [internal/app/vodtester]: the three uploads *)

(** What [RequestUpload] returns, with the fields the testers read. *)
Record UploadUrls : Type := {
  Upload_Url : string;           (* Url *)
  Upload_TusEndpoint : string;   (* TusEndpoint *)
  Upload_Asset : Asset;          (* Asset *)
  Upload_Task : Task;            (* Task *)
}.

Record File : Type := { File_name : string }.

(** The API client [vt.Lapi], as what its calls return. *)
Module api.
Record Client : Type := {
  GetAsset : string -> bool -> Asset + error;
  GetPlaybackInfo : string -> PlaybackInfo + error;
  UploadViaURL : string -> string -> string -> (Asset * Task) + error;
  RequestUpload : string -> string -> UploadUrls + error;
  UploadAsset : string -> File -> option error;
  ResumableUpload : string -> File -> option error;
  ExportAsset : string -> Task + error;
  GetServer : string;
}.
End api.

(** What the tester finds around it: the host, the file system, the
    manifest reader, the URL parser, and the constants and conversions that
    [checkPlayback] takes. *)
Record System : Type := {
  os_Hostname : string;
  os_Open : string -> File + error;
  m3u8_CheckStats : string -> Z -> Z -> Stats + error;
  api_PlaybackInfoSourceTypeHLS : string;
  verb_f : float64 -> string;
  time_Duration : float64 -> Z;
  net_url_Parse : string -> url.URL + error;
  net_url_String : url.URL -> string;
}.

(** [vodTester]: the client, the pipeline strategy, and the method
    [WaitTaskProcessing] of the embedded [TesterApp], of which only the error
    is read. *)
Record vodTester : Type := {
  Lapi : api.Client;
  CatalystPipelineStrategy : string;
  WaitTaskProcessing : Z -> Task -> option error;
}.

(** What a tester does to the files it is given. *)
Inductive fileEvent : Type :=
| Opened (file : File)
| Closed (file : File).

Section Testers.

Variable sys : System.
Variable vt : vodTester.

(** [vt.checkPlayback] *)
Definition vt_checkPlayback (assetID : string) : option error :=
  checkPlayback (api.GetAsset (Lapi vt)) (api.GetPlaybackInfo (Lapi vt)) (m3u8_CheckStats sys)
                (api_PlaybackInfoSourceTypeHLS sys) (verb_f sys) (time_Duration sys)
                assetID.

Definition uploadViaUrlTester (vodImportUrl : string) (taskPollDuration : Z)
    (assetName : string) : Asset + error :=
  match api.UploadViaURL (Lapi vt) vodImportUrl assetName (CatalystPipelineStrategy vt) with
  | inr err => inr (Errorf_w "error importing asset: " err)
  | inl (importAsset, importTask) =>
      match WaitTaskProcessing vt taskPollDuration importTask with
      | Some err => inr (Errorf_w "error waiting for asset processing: " err)
      | None =>
          match vt_checkPlayback (ID importAsset) with
          | Some err => inr (Errorf_w "error checking playback: " err)
          | None => inl importAsset
          end
      end
  end.

(** [now] is [time.Now()] in the layout the asset names use. The second
    component lists the calls on the file, the deferred [Close] last. *)
Definition directUploadTester (now : string) (fileName : string) (taskPollDuration : Z)
  : option error * list fileEvent :=
  let hostName := os_Hostname sys in
  let assetName := "vod_test_upload_direct_" +:+ hostName +:+ "_" +:+ now in
  match api.RequestUpload (Lapi vt) assetName (CatalystPipelineStrategy vt) with
  | inr err =>
      (Some (Errorf_w ("error requesting upload for assetName=" +:+ assetName +:+ ": ") err),
       [])
  | inl requestUpload =>
      let uploadEndpoint := Upload_Url requestUpload in
      let uploadAsset := Upload_Asset requestUpload in
      let uploadTask := {| Task_ID := Task_ID (Upload_Task requestUpload) |} in
      match os_Open sys fileName with
      | inr err =>
          (Some (Errorf_w ("error opening file=" +:+ fileName +:+ ": ") err), [])
      | inl file =>
          let result :=
            match api.UploadAsset (Lapi vt) uploadEndpoint file with
            | Some err =>
                Some (Errorf_w ("error uploading for assetId=" +:+ ID uploadAsset
                                +:+ " taskId=" +:+ Task_ID uploadTask +:+ ": ") err)
            | None =>
                match WaitTaskProcessing vt taskPollDuration uploadTask with
                | Some err => Some (Errorf_w "error waiting for asset processing: " err)
                | None =>
                    match vt_checkPlayback (ID uploadAsset) with
                    | Some err => Some (Errorf_w "error checking playback: " err)
                    | None => None
                    end
                end
            end in
          (result, [Opened file; Closed file])
      end
  end.

Definition resumableUploadTester (now : string) (fileName : string) (taskPollDuration : Z)
  : option error * list fileEvent :=
  let hostName := os_Hostname sys in
  let assetName := "vod_test_upload_resumable_" +:+ hostName +:+ "_" +:+ now in
  match api.RequestUpload (Lapi vt) assetName (CatalystPipelineStrategy vt) with
  | inr err =>
      (Some (Errorf_w ("error requesting upload for assetName=" +:+ assetName +:+ ": ") err),
       [])
  | inl requestUpload =>
      let tusUploadEndpoint :=
        patchURLHost (net_url_Parse sys) (net_url_String sys)
                     (Upload_TusEndpoint requestUpload) (api.GetServer (Lapi vt)) in
      let uploadAsset := Upload_Asset requestUpload in
      let uploadTask := {| Task_ID := Task_ID (Upload_Task requestUpload) |} in
      match os_Open sys fileName with
      | inr err =>
          (Some (Errorf_w ("error opening file=" +:+ fileName +:+ ": ") err), [])
      | inl file =>
          let result :=
            match api.ResumableUpload (Lapi vt) tusUploadEndpoint file with
            | Some err =>
                Some (Errorf_w ("error resumable uploading for assetId=" +:+ ID uploadAsset
                                +:+ " taskId=" +:+ Task_ID uploadTask +:+ ": ") err)
            | None =>
                match WaitTaskProcessing vt taskPollDuration uploadTask with
                | Some err => Some (Errorf_w "error waiting for asset processing: " err)
                | None =>
                    match vt_checkPlayback (ID uploadAsset) with
                    | Some err => Some (Errorf_w "error checking playback: " err)
                    | None => None
                    end
                end
            end in
          (result, [Opened file])
      end
  end.

(** The three functions of [Start], on this client and system. *)
Definition urlImport (now : string) (vodImportUrl : string) (taskPollDuration : Z)
  : option error :=
  let hostName := os_Hostname sys in
  let assetName := "vod_test_asset_" +:+ hostName +:+ "_" +:+ now in
  urlImportPhase vodImportUrl
    (uploadViaUrlTester vodImportUrl taskPollDuration assetName)
    (api.ExportAsset (Lapi vt))
    (WaitTaskProcessing vt taskPollDuration).

Definition directUpload (now : string) (fileName : string) (taskPollDuration : Z)
  : option error :=
  directUploadPhase (fst (directUploadTester now fileName taskPollDuration)).

Definition resumableUpload (now : string) (fileName : string) (taskPollDuration : Z)
  : option error :=
  resumableUploadPhase (fst (resumableUploadTester now fileName taskPollDuration)).

End Testers.


(** The runs of [Start] from a given session on. *)
Definition steps (vodImportUrl : string) : session -> session -> Prop :=
  rtc (step vodImportUrl).

(** [cause] is the error that one of the calls of a tester returned: a call
    of the API client, of [WaitTaskProcessing], of [os.Open] or of
    [m3u8.CheckStats]. *)
Definition callFailed (sys : System) (vt : vodTester) (cause : error) : Prop :=
  (exists url name strategy, api.UploadViaURL (Lapi vt) url name strategy = inr cause)
  \/ (exists name strategy, api.RequestUpload (Lapi vt) name strategy = inr cause)
  \/ (exists endpoint file, api.UploadAsset (Lapi vt) endpoint file = Some cause)
  \/ (exists endpoint file, api.ResumableUpload (Lapi vt) endpoint file = Some cause)
  \/ (exists assetID, api.ExportAsset (Lapi vt) assetID = inr cause)
  \/ (exists poll task, WaitTaskProcessing vt poll task = Some cause)
  \/ (exists fileName, os_Open sys fileName = inr cause)
  \/ (exists assetID, api.GetAsset (Lapi vt) assetID false = inr cause)
  \/ (exists playbackID, api.GetPlaybackInfo (Lapi vt) playbackID = inr cause)
  \/ (exists url duration wait, m3u8_CheckStats sys url duration wait = inr cause).

(** [cause] is one of the three errors that [checkPlayback] makes itself. *)
Definition playbackVerdict (sys : System) (cause : error) : Prop :=
  (exists d, cause = errorString ("missing asset duration (" +:+ verb_f sys d +:+ ")"))
  \/ cause = errorString "no HLS source found in playback info"
  \/ cause = errorString "no transcoded renditions found in playlist".
(** ** Examples of testers *)




(** A client whose calls all fail with the cancellation of their context. *)
Definition cancelledClient : api.Client :=
  {| api.GetAsset := fun _ _ => inr context_Canceled;
     api.GetPlaybackInfo := fun _ => inr context_Canceled;
     api.UploadViaURL := fun _ _ _ => inr context_Canceled;
     api.RequestUpload := fun _ _ => inr context_Canceled;
     api.UploadAsset := fun _ _ => Some context_Canceled;
     api.ResumableUpload := fun _ _ => Some context_Canceled;
     api.ExportAsset := fun _ => inr context_Canceled;
     api.GetServer := "http://livepeer.monster" |}.

(** A system on which every file opens and every manifest shows two
    renditions. *)
Definition sampleSystem : System :=
  {| os_Hostname := "host";
     os_Open := fun fileName => inl {| File_name := fileName |};
     m3u8_CheckStats := fun _ _ _ =>
       inl {| SegmentsNum := <["source" := 5%Z]> (<["360p" := 5%Z]> ∅) |};
     api_PlaybackInfoSourceTypeHLS := "html5/application/vnd.apple.mpegurl";
     verb_f := fun _ => "10.000000";
     time_Duration := fun d => match d with FNum r => Int_part r | _ => 0%Z end;
     net_url_Parse := url.Parse;
     net_url_String := url.String |}.


Definition cancelledTester : vodTester :=
  {| Lapi := cancelledClient;
     CatalystPipelineStrategy := "catalyst";
     WaitTaskProcessing := fun _ _ => Some context_Canceled |}.
(** * Theorems *)

(** ** Real numbers and the [float64] operations *)

Section FloatFacts.
Local Open Scope R_scope.

Lemma Rsign_pos r : 0 < r -> Rsign r = Gt.
Proof.
  intros H. unfold Rsign.
  destruct (total_order_T r 0) as [[Hlt|Heq]|Hgt]; [lra|lra|reflexivity].
Qed.

Lemma Rsign_neg r : r < 0 -> Rsign r = Lt.
Proof.
  intros H. unfold Rsign.
  destruct (total_order_T r 0) as [[Hlt|Heq]|Hgt]; [reflexivity|lra|lra].
Qed.

Lemma Rsign_zero : Rsign 0 = Eq.
Proof.
  unfold Rsign.
  destruct (total_order_T 0 0) as [[Hlt|Heq]|Hgt]; [lra|reflexivity|lra].
Qed.

Lemma Rsign_Lt r : Rsign r = Lt -> r < 0.
Proof.
  unfold Rsign.
  destruct (total_order_T r 0) as [[Hlt|Heq]|Hgt]; intros E; try discriminate E.
  exact Hlt.
Qed.

Lemma PI_bounds : 3.14 < PI < 3.15.
Proof.
  pose proof (PI_2_3_7_ineq 1) as [Hlo Hhi].
  unfold sum_f_R0, tg_alt, PI_2_3_7_tg, Ratan_seq in Hlo, Hhi.
  simpl in Hlo, Hhi.
  split; lra.
Qed.

Lemma fle_num a b : fle (FNum a) (FNum b) = true <-> a <= b.
Proof. simpl. destruct (Rle_dec a b); split; intros; try discriminate; tauto. Qed.

Lemma fle_refl x : x <> FNaN -> fle x x = true.
Proof.
  destruct x; simpl; try reflexivity; try congruence.
  intros _. destruct (Rle_dec r r) as [|n]; [reflexivity|exfalso; apply n; lra].
Qed.

Lemma fle_total x y : x <> FNaN -> y <> FNaN -> fle x y = true \/ fle y x = true.
Proof.
  destruct x as [a| | |], y as [b| | |]; simpl; try congruence; auto.
  intros _ _. destruct (Rle_dec a b), (Rle_dec b a); auto. lra.
Qed.

Lemma fle_trans x y z : fle x y = true -> fle y z = true -> fle x z = true.
Proof.
  destruct x as [a| | |], y as [b| | |], z as [c| | |]; simpl;
    try discriminate; try reflexivity.
  destruct (Rle_dec a b), (Rle_dec b c), (Rle_dec a c);
    try discriminate; try reflexivity. lra.
Qed.

Lemma radians_num r : radians (FNum r) = FNum (r * PI / 180).
Proof. unfold radians. simpl. rewrite Rsign_pos by lra. reflexivity. Qed.

Lemma radians_NaN : radians FNaN = FNaN.
Proof. reflexivity. Qed.

Lemma getDistance_unfold lat1 lon1 lat2 lon2 :
  getDistance lat1 lon1 lat2 lon2
  = hav_d (hav_a (radians lat1) (radians lon1) (radians lat2) (radians lon2)).
Proof. reflexivity. Qed.


Lemma hav_a_num a1 b1 a2 b2 :
  hav_a (FNum a1) (FNum b1) (FNum a2) (FNum b2)
  = FNum (sin (a2 - a1) * sin (a2 - a1)
          + cos a1 * cos a2 * sin (b2 - b1) * sin (b2 - b1)).
Proof. reflexivity. Qed.

Lemma hav_a_NaN_lat x1 y1 y2 : hav_a x1 y1 FNaN y2 = FNaN.
Proof. unfold hav_a. destruct x1; reflexivity. Qed.

Lemma hav_d_num a :
  0 <= a <= 1 ->
  hav_d (FNum a) = FNum (6371 * (2 * math.atan2 (sqrt a) (sqrt (1 - a)))).
Proof.
  intros [H0 H1]. unfold hav_d, earthRadius. simpl.
  assert (Ha : Rsign a <> Lt) by (intros E; apply Rsign_Lt in E; lra).
  assert (Hb : Rsign (1 + - a) <> Lt) by (intros E; apply Rsign_Lt in E; lra).
  destruct (Rsign a); try congruence;
    destruct (Rsign (1 + - a)); try congruence; reflexivity.
Qed.

Lemma hav_d_NaN : hav_d FNaN = FNaN.
Proof. reflexivity. Qed.

Lemma atan2_0_1 : math.atan2 0 1 = 0.
Proof.
  unfold math.atan2. rewrite Rsign_pos by lra.
  replace (0 / 1) with 0 by field. apply atan_0.
Qed.

Lemma atan2_1_0 : math.atan2 1 0 = PI / 2.
Proof.
  unfold math.atan2. rewrite Rsign_zero. rewrite Rsign_pos by lra. reflexivity.
Qed.

(** The angle of a point of the unit circle in the first quadrant. *)
Lemma atan2_sin_cos d : 0 <= d < PI / 2 -> math.atan2 (sin d) (cos d) = d.
Proof.
  intros [H0 H1]. unfold math.atan2.
  assert (0 < cos d) by (apply cos_gt_0; lra).
  rewrite Rsign_pos by assumption.
  change (sin d / cos d) with (tan d). apply atan_tan. lra.
Qed.

Lemma getDistance_same (lat lon : R) :
  getDistance (FNum lat) (FNum lon) (FNum lat) (FNum lon) = FNum 0.
Proof.
  rewrite getDistance_unfold, !radians_num, hav_a_num.
  replace (_ + _) with 0.
  2:{ rewrite !Rminus_diag, sin_0. ring. }
  rewrite hav_d_num by lra. f_equal.
  rewrite sqrt_0, Rminus_0_r, sqrt_1, atan2_0_1. ring.
Qed.

(** A quarter turn of longitude along the equator. *)
Lemma getDistance_quarter_turn :
  getDistance (FNum 0) (FNum 0) (FNum 0) (FNum 90) = FNum (6371 * (2 * (PI / 2))).
Proof.
  rewrite getDistance_unfold, !radians_num, hav_a_num.
  replace (0 * PI / 180) with 0 by field.
  replace (90 * PI / 180 - 0) with (PI / 2) by field.
  rewrite Rminus_diag, sin_0, cos_0, sin_PI2.
  replace (0 * 0 + 1 * 1 * 1 * 1) with 1 by ring.
  rewrite hav_d_num by lra.
  rewrite Rminus_diag, sqrt_0, sqrt_1, atan2_1_0. reflexivity.
Qed.

Lemma getDistance_NaN_lat lat long lon2 : getDistance lat long FNaN lon2 = FNaN.
Proof. rewrite getDistance_unfold, radians_NaN, hav_a_NaN_lat. reflexivity. Qed.

Lemma hav_d_above_1 a : 1 < a -> hav_d (FNum a) = FNaN.
Proof.
  intros Ha. unfold hav_d, earthRadius. simpl.
  rewrite (Rsign_pos a) by lra. rewrite (Rsign_neg (1 + - a)) by lra. reflexivity.
Qed.

(** With whole-angle sines the term [a] can exceed 1, and the distance
    between two ordinary points is then NaN. *)
Lemma getDistance_NaN_from_numbers :
  getDistance (FNum (-45)) (FNum 0) (FNum 45) (FNum 90) = FNaN.
Proof.
  rewrite getDistance_unfold, !radians_num, hav_a_num.
  replace (45 * PI / 180 - -45 * PI / 180) with (PI / 2) by field.
  replace (90 * PI / 180 - 0 * PI / 180) with (PI / 2) by field.
  replace (-45 * PI / 180) with (- (PI / 4)) by field.
  replace (45 * PI / 180) with (PI / 4) by field.
  rewrite <- cos_sym, sin_PI2, cos_PI4.
  apply hav_d_above_1.
  assert (Hs : sqrt 2 * sqrt 2 = 2) by (apply sqrt_def; lra).
  assert (Hpos : 0 < sqrt 2) by (apply sqrt_lt_R0; lra).
  replace (1 / sqrt 2 * (1 / sqrt 2)) with (/ (sqrt 2 * sqrt 2)) by (field; lra).
  rewrite Hs. lra.
Qed.

Lemma getDistance_one_degree :
  getDistance (FNum 0) (FNum 0) (FNum 1) (FNum 0) = FNum (6371 * (2 * (PI / 180))).
Proof.
  pose proof PI_RGT_0 as Hpi. pose proof PI_4 as Hpi4.
  rewrite getDistance_unfold, !radians_num, hav_a_num.
  replace (0 * PI / 180) with 0 by field.
  replace (1 * PI / 180 - 0) with (PI / 180) by field.
  replace (1 * PI / 180) with (PI / 180) by field.
  rewrite Rminus_diag, sin_0.
  set (d := PI / 180).
  assert (Hd : 0 <= d < PI / 2) by (unfold d; lra).
  assert (Hs : 0 <= sin d) by (apply sin_ge_0; lra).
  assert (Hc : 0 < cos d) by (apply cos_gt_0; lra).
  pose proof (sin2_cos2 d) as Hsc. unfold Rsqr in Hsc.
  replace (sin d * sin d + cos 0 * cos d * 0 * 0) with (sin d * sin d) by ring.
  rewrite hav_d_num by nra.
  replace (1 - sin d * sin d) with (cos d * cos d) by lra.
  rewrite !sqrt_square by lra.
  rewrite atan2_sin_cos by assumption. reflexivity.
Qed.

Lemma haversine_spec_one_degree : haversine_spec 0 0 1 0 = 6371 * (PI / 180).
Proof.
  pose proof PI_RGT_0 as Hpi. pose proof PI_4 as Hpi4.
  unfold haversine_spec.
  replace (0 * PI / 180) with 0 by field.
  replace ((1 * PI / 180 - 0) / 2) with (PI / 360) by field.
  replace ((0 - 0) / 2) with 0 by field.
  rewrite sin_0.
  set (h := PI / 360).
  assert (Hh : 0 <= h < PI / 2) by (unfold h; lra).
  assert (Hs : 0 <= sin h) by (apply sin_ge_0; lra).
  assert (Hc : 0 < cos h) by (apply cos_gt_0; lra).
  pose proof (sin2_cos2 h) as Hsc.
  replace (Rsqr (sin h) + cos 0 * cos (1 * PI / 180) * Rsqr 0) with (Rsqr (sin h))
    by (unfold Rsqr; ring).
  replace (1 - Rsqr (sin h)) with (Rsqr (cos h)) by lra.
  rewrite !sqrt_Rsqr by lra.
  rewrite atan2_sin_cos by assumption. unfold h. field.
Qed.

(** C1. At two points one degree of latitude apart on the equator,
    [getDistance] returns twice what the haversine formula of the
    specification gives: the specification's value lies within one percent of
    111 km, the value of the code is above 222 km. The code takes the sines
    of the whole differences of latitude and longitude, the formula takes
    them of the half differences. *)
Theorem C1_getDistance_one_degree_is_twice_haversine :
  getDistance (FNum 0) (FNum 0) (FNum 1) (FNum 0)
  = FNum (2 * haversine_spec 0 0 1 0)
  /\ 111 * (1 - 1 / 100) <= haversine_spec 0 0 1 0 <= 111 * (1 + 1 / 100)
  /\ 222 < 2 * haversine_spec 0 0 1 0.
Proof.
  pose proof PI_bounds as [Hlo Hhi].
  rewrite getDistance_one_degree, haversine_spec_one_degree.
  split; [f_equal; field|]. split; [split|]; lra.
Qed.


End FloatFacts.

(** ** Sorting, grouping and selecting *)

Section SortFacts.
Context {A : Type} (less : A -> A -> bool).

Lemma insertLeft_perm x before : sort.insertLeft less x before ≡ₚ x :: before.
Proof.
  induction before as [|y rest IH]; simpl; [reflexivity|].
  destruct (less x y); [|reflexivity].
  rewrite IH. apply Permutation_swap.
Qed.

Lemma insertion_perm data before :
  fold_left (fun before x => sort.insertLeft less x before) data before
  ≡ₚ before ++ data.
Proof.
  revert before. induction data as [|x data IH]; intros before; simpl.
  - rewrite app_nil_r. reflexivity.
  - rewrite IH, insertLeft_perm. simpl. apply Permutation_middle.
Qed.

Lemma Slice_perm data : sort.Slice less data ≡ₚ data.
Proof.
  unfold sort.Slice, sort.insertionSort.
  rewrite <- Permutation_rev. apply (insertion_perm data []).
Qed.

(** Elements on which [less] is a total preorder. *)
Variable ok : A -> Prop.
Hypothesis less_total : forall a b, ok a -> ok b -> less a b = true \/ less b a = true.
Hypothesis less_trans :
  forall a b c, less a b = true -> less b c = true -> less a c = true.

Local Abbreviation descending := (StronglySorted (fun a b => less b a = true)).

Lemma insertLeft_descending x before :
  ok x -> Forall ok before -> descending before ->
  descending (sort.insertLeft less x before).
Proof.
  intros Hx Hok Hd. induction Hd as [|y rest Hrest IH Hy]; simpl.
  - repeat constructor.
  - apply Forall_cons in Hok as [Hoky Hokr].
    destruct (less x y) eqn:E.
    + constructor; [apply IH; assumption|].
      rewrite (insertLeft_perm x rest). constructor; assumption.
    + assert (Hyx : less y x = true).
      { destruct (less_total x y Hx Hoky) as [H|H]; [congruence|exact H]. }
      constructor; [constructor; assumption|].
      constructor; [exact Hyx|].
      eapply Forall_impl; [exact Hy|]. intros z Hz. simpl in Hz. eauto.
Qed.

Lemma insertion_descending data before :
  Forall ok data -> Forall ok before -> descending before ->
  descending (fold_left (fun before x => sort.insertLeft less x before) data before).
Proof.
  revert before. induction data as [|x data IH]; intros before Hdata Hb Hd; simpl.
  - exact Hd.
  - apply Forall_cons in Hdata as [Hx Hdata].
    apply IH; [assumption| |apply insertLeft_descending; assumption].
    rewrite (insertLeft_perm x before). constructor; assumption.
Qed.

Lemma descending_rev l :
  descending l -> StronglySorted (fun a b => less a b = true) (rev l).
Proof.
  induction 1 as [|y rest Hrest IH Hy]; simpl; [constructor|].
  apply StronglySorted_app_2; [|exact IH|repeat constructor].
  intros a b Ha Hb. apply list_elem_of_singleton in Hb as ->.
  rewrite list_elem_of_In in Ha. apply in_rev in Ha.
  rewrite Forall_forall in Hy. apply Hy. apply list_elem_of_In. assumption.
Qed.

Lemma Slice_sorted data :
  Forall ok data ->
  StronglySorted (fun a b => less a b = true) (sort.Slice less data).
Proof.
  intros Hok. apply descending_rev, insertion_descending;
    [assumption|constructor|constructor].
Qed.

End SortFacts.

Lemma findInSlice_from_spec key slice : forall i,
  (0 <= i)%Z ->
  (Forall (fun g => Key g <> key) slice /\ findInSlice_from i slice key = (-1)%Z)
  \/ (exists k g, slice !! k = Some g /\ Key g = key
                  /\ findInSlice_from i slice key = (i + Z.of_nat k)%Z).
Proof.
  induction slice as [|v rest IH]; intros i Hi; simpl.
  - left. split; [constructor|reflexivity].
  - destruct (String.eqb_spec (Key v) key) as [E|E].
    + right. exists 0%nat, v. split; [reflexivity|]. split; [exact E|lia].
    + destruct (IH (i + 1)%Z ltac:(lia)) as [[Hall Hres]|(k & g & Hk & Hg & Hres)].
      * left. split; [constructor; assumption|exact Hres].
      * right. exists (S k), g. split; [exact Hk|]. split; [exact Hg|]. lia.
Qed.

Lemma hasKey_true key m : hasKey key m = true <-> memberKey m = key.
Proof. unfold hasKey. apply String.eqb_eq. Qed.

Lemma hasKey_false key m : hasKey key m = false <-> memberKey m <> key.
Proof. unfold hasKey. apply String.eqb_neq. Qed.

Lemma filter_snoc_in key seen m :
  memberKey m = key ->
  List.filter (hasKey key) (seen ++ [m]) = List.filter (hasKey key) seen ++ [m].
Proof.
  intros E. rewrite List.filter_app. simpl.
  apply hasKey_true in E. rewrite E. reflexivity.
Qed.

Lemma filter_snoc_out key seen m :
  memberKey m <> key ->
  List.filter (hasKey key) (seen ++ [m]) = List.filter (hasKey key) seen.
Proof.
  intros E. rewrite List.filter_app. simpl.
  apply hasKey_false in E. rewrite E. apply app_nil_r.
Qed.

Lemma groupOf_other P lat long seen m g :
  memberKey m <> Key g ->
  groupOf P lat long seen g -> groupOf P lat long (seen ++ [m]) g.
Proof.
  intros E [Hn Hm]. split; [|exact Hm].
  rewrite filter_snoc_out by exact E. exact Hn.
Qed.

Lemma groupOf_withNode P lat long seen m g :
  memberKey m = Key g ->
  groupOf P lat long seen g -> groupOf P lat long (seen ++ [m]) (withNode g m).
Proof.
  intros E [Hn (m0 & Hhead & Hlat & Hlon & Hd)]. split; simpl.
  - rewrite filter_snoc_in by exact E. rewrite <- Hn. reflexivity.
  - exists m0. split; [|auto].
    destruct (Nodes g); [discriminate Hhead|exact Hhead].
Qed.

(** No group for a key: no member seen so far has it. *)
Lemma grouped_fresh P lat long seen nd key :
  grouped P lat long seen nd ->
  Forall (fun g => Key g <> key) nd ->
  List.filter (hasKey key) seen = [].
Proof.
  intros (_ & Hg & Hperm) Hfresh.
  assert (Hall : Forall (fun x => hasKey key x = false) seen).
  { rewrite <- Hperm. apply Forall_concat, Forall_fmap.
    rewrite Forall_forall in Hg, Hfresh. apply Forall_forall. intros g Hin.
    simpl. destruct (Hg g Hin) as [Hn _]. rewrite Hn.
    apply Forall_forall. intros x Hx.
    apply list_elem_of_In, filter_In in Hx as [_ Hx].
    apply hasKey_true in Hx. apply hasKey_false. rewrite Hx. apply Hfresh, Hin. }
  clear -Hall. induction Hall as [|x l Hx _ IH]; simpl; [reflexivity|].
  rewrite Hx. exact IH.
Qed.

Lemma addMember_grouped P lat long seen nd m :
  grouped P lat long seen nd ->
  exists nd', addMember P lat long nd m = Some nd'
              /\ grouped P lat long (seen ++ [m]) nd'.
Proof.
  intros Hgr. pose proof Hgr as (Hnd & Hg & Hperm).
  unfold addMember.
  destruct (getMemberLocation m) as [x2 y2] eqn:Hloc.
  assert (Hkey : memberKey m = locationKey x2 y2)
    by (unfold memberKey; rewrite Hloc; reflexivity).
  assert (Hx2 : x2 = tag m "latitude") by (unfold getMemberLocation in Hloc; congruence).
  assert (Hy2 : y2 = tag m "longitude") by (unfold getMemberLocation in Hloc; congruence).
  set (key := locationKey x2 y2) in *.
  unfold findInSlice.
  destruct (findInSlice_from_spec key nd 0%Z ltac:(lia))
    as [[Hfresh Hres]|(k & g & Hk & Hgk & Hres)]; rewrite Hres.
  - (* a new location *)
    simpl. eexists. split; [reflexivity|].
    split; [|split].
    + rewrite fmap_app. simpl. apply NoDup_app. split; [exact Hnd|].
      split; [|apply NoDup_singleton].
      intros k' Hin Hin'. apply list_elem_of_singleton in Hin'. subst k'.
      apply list_elem_of_fmap in Hin as (g & Hgk & Hin).
      rewrite Forall_forall in Hfresh. apply (Hfresh g Hin). symmetry. exact Hgk.
    + apply Forall_app. split.
      * rewrite Forall_forall in Hg, Hfresh. apply Forall_forall. intros g Hin.
        apply groupOf_other; [|apply Hg, Hin].
        rewrite Hkey. intros E. apply (Hfresh g Hin). symmetry. exact E.
      * constructor; [|constructor]. split; simpl.
        -- rewrite filter_snoc_in by exact Hkey.
           rewrite (grouped_fresh P lat long seen nd key Hgr Hfresh). reflexivity.
        -- exists m. rewrite Hx2, Hy2. auto.
    + rewrite fmap_app, concat_app. simpl. rewrite Hperm. reflexivity.
  - (* a location seen before *)
    assert (Hne : ((0 + Z.of_nat k =? -1) = false)%Z) by lia.
    rewrite Hne. unfold at_index.
    assert (Hlt : ((0 + Z.of_nat k <? 0) = false)%Z) by lia.
    rewrite Hlt. replace (Z.to_nat (0 + Z.of_nat k)) with k by lia.
    rewrite Hk. simpl. eexists. split; [reflexivity|].
    assert (Hklt : (k < length nd)%nat) by (eapply lookup_lt_Some; exact Hk).
    rewrite insert_take_drop by exact Hklt.
    rewrite <- (take_drop_middle nd k g Hk) in Hnd, Hg, Hperm.
    set (l1 := take k nd) in *. set (l2 := drop (S k) nd) in *.
    rewrite fmap_app, fmap_cons in Hnd.
    apply NoDup_app in Hnd as (Hnd1 & Hnd12 & Hnd2).
    apply NoDup_cons in Hnd2 as [Hg2 Hnd2].
    apply Forall_app in Hg as [Hg1 Hg2']. apply Forall_cons in Hg2' as [Hgg Hg2'].
    split; [|split].
    + rewrite fmap_app, fmap_cons. simpl.
      apply NoDup_app. split; [exact Hnd1|]. split; [exact Hnd12|].
      apply NoDup_cons. split; assumption.
    + apply Forall_app. split; [|constructor].
      * rewrite Forall_forall in Hg1. apply Forall_forall. intros x Hin.
        apply groupOf_other; [|apply Hg1, Hin].
        rewrite Hkey, <- Hgk. intros E.
        apply (Hnd12 (Key x)); [apply list_elem_of_fmap; eauto|].
        rewrite <- E. left.
      * apply groupOf_withNode; [congruence|exact Hgg].
      * rewrite Forall_forall in Hg2'. apply Forall_forall. intros x Hin.
        apply groupOf_other; [|apply Hg2', Hin].
        rewrite Hkey, <- Hgk. intros E.
        apply Hg2. rewrite E. apply list_elem_of_fmap; eauto.
    + rewrite fmap_app, fmap_cons, concat_app in Hperm |- *. simpl in Hperm |- *.
      rewrite <- Hperm.
      rewrite <- !app_assoc.
      apply Permutation_app_head.
      apply Permutation_app_head, Permutation_app_comm.
Qed.

Lemma addMembers_grouped P lat long ms : forall seen nd,
  grouped P lat long seen nd ->
  exists nd', addMembers P lat long nd ms = Some nd'
              /\ grouped P lat long (seen ++ ms) nd'.
Proof.
  induction ms as [|m ms IH]; intros seen nd Hgr; simpl.
  - exists nd. rewrite app_nil_r. auto.
  - destruct (addMember_grouped P lat long seen nd m Hgr) as (nd1 & -> & Hgr1).
    simpl. destruct (IH _ _ Hgr1) as (nd' & Hnd' & Hgr').
    exists nd'. rewrite <- app_assoc in Hgr'. auto.
Qed.

Lemma nodeDistancesOf_grouped P lat long ms :
  exists nd, nodeDistancesOf P ms lat long = Some nd /\ grouped P lat long ms nd.
Proof.
  apply (addMembers_grouped P lat long ms [] []).
  split; [constructor|]. split; [constructor|reflexivity].
Qed.

Lemma selectNodes_spec k nd : forall acc,
  exists j, (j <= length nd)%nat
    /\ selectNodes k acc nd = acc ++ concat (map Nodes (take j nd))
    /\ (j = length nd \/ (k <= Z.of_nat (length (selectNodes k acc nd)))%Z).
Proof.
  induction nd as [|node rest IH]; intros acc; simpl.
  - exists 0%nat. rewrite app_nil_r. auto.
  - destruct (Z.ltb_spec (Z.of_nat (length acc)) k) as [Hlt|Hge].
    + destruct (IH (acc ++ Nodes node)) as (j & Hj & Heq & Hstop).
      exists (S j). split; [lia|]. split.
      * rewrite Heq. simpl. rewrite <- app_assoc. reflexivity.
      * destruct Hstop as [->|Hk]; [left; reflexivity|right; exact Hk].
    + exists 0%nat. split; [lia|]. simpl. rewrite app_nil_r. split; [reflexivity|].
      right. exact Hge.
Qed.

(** What the selection returns: the members of the first [j] groups of the
    sorted list, all of them unless the wanted count is reached. *)
Lemma getClosestSerfNodes_groups P ms k lat long :
  exists nd j r,
    nodeDistancesOf P ms lat long = Some nd
    /\ grouped P lat long ms nd
    /\ getClosestSerfNodes P ms k lat long = Some r
    /\ r = concat (map Nodes (take j (sort.Slice lessDistance nd)))
    /\ (j = length nd \/ (k <= Z.of_nat (length r))%Z).
Proof.
  destruct (nodeDistancesOf_grouped P lat long ms) as (nd & Hnd & Hgr).
  destruct (selectNodes_spec k (sort.Slice lessDistance nd) []) as (j & Hj & Heq & Hstop).
  exists nd, j, (selectNodes k [] (sort.Slice lessDistance nd)).
  split; [exact Hnd|]. split; [exact Hgr|].
  split; [unfold getClosestSerfNodes; rewrite Hnd; reflexivity|].
  split; [exact Heq|].
  destruct Hstop as [->|Hk]; [left|right; exact Hk].
  apply Permutation_length, Slice_perm.
Qed.

Lemma grouped_Permutation P lat long ms nd nd' :
  nd' ≡ₚ nd -> grouped P lat long ms nd -> grouped P lat long ms nd'.
Proof.
  intros Hp (Hnd & Hg & Hperm). split; [|split].
  - rewrite Hp. exact Hnd.
  - rewrite Hp. exact Hg.
  - rewrite Hp. exact Hperm.
Qed.

Lemma length_groups P lat long ms nd :
  grouped P lat long ms nd -> length (concat (map Nodes nd)) = length ms.
Proof. intros (_ & _ & Hperm). apply Permutation_length, Hperm. Qed.

Lemma length_concat_take {A} (ls : list (list A)) j :
  (length (concat (take j ls)) <= length (concat ls))%nat.
Proof.
  rewrite <- (take_drop j ls) at 2. rewrite concat_app, length_app. lia.
Qed.

(** C3. The selection returns; when at least [selectNodeCount] candidates
    exist it returns at least that many, when fewer exist it returns all of
    them (in some order), and from no candidates it returns none. *)
Theorem C3_getClosestSerfNodes_count
    (ParseFloat : string -> float64 * option strconv.NumError)
    (serfMembers : list Member) (selectNodeCount : Z) (lat long : float64) :
  exists r,
    getClosestSerfNodes ParseFloat serfMembers selectNodeCount lat long = Some r
    /\ ((selectNodeCount <= Z.of_nat (length serfMembers))%Z ->
        (selectNodeCount <= Z.of_nat (length r))%Z)
    /\ ((Z.of_nat (length serfMembers) < selectNodeCount)%Z -> r ≡ₚ serfMembers)
    /\ (serfMembers = [] -> r = []).
Proof.
  destruct (getClosestSerfNodes_groups ParseFloat serfMembers selectNodeCount lat long)
    as (nd & j & r & Hnd & Hgr & Hr & Heq & Hstop).
  pose proof (grouped_Permutation _ _ _ _ _ _ (Slice_perm lessDistance nd) Hgr) as Hgs.
  pose proof (length_groups _ _ _ _ _ Hgs) as Hlen.
  destruct Hgs as (_ & _ & Hperm).
  assert (Hall : j = length nd -> r ≡ₚ serfMembers).
  { intros ->. rewrite Heq, take_ge; [exact Hperm|].
    rewrite (Permutation_length (Slice_perm lessDistance nd)). reflexivity. }
  assert (Hle : (length r <= length serfMembers)%nat).
  { rewrite Heq, <- Hlen, fmap_take. apply length_concat_take. }
  exists r. split; [exact Hr|]. split; [|split].
  - intros Hk. destruct Hstop as [Hj|Hk']; [|exact Hk'].
    rewrite (Permutation_length (Hall Hj)). exact Hk.
  - intros Hk. destruct Hstop as [Hj|Hk']; [exact (Hall Hj)|lia].
  - intros ->. destruct r; [reflexivity|simpl in Hle; lia].
Qed.


Lemma filter_hasKey_other key key' ms :
  key <> key' ->
  List.filter (hasKey key) (List.filter (hasKey key') ms) = [].
Proof.
  intros Hne. induction ms as [|m ms IH]; simpl; [reflexivity|].
  destruct (hasKey key' m) eqn:E'; [|exact IH]. simpl.
  destruct (hasKey key m) eqn:E; [|exact IH].
  apply hasKey_true in E, E'. congruence.
Qed.

Lemma filter_hasKey_same key ms :
  List.filter (hasKey key) (List.filter (hasKey key) ms) = List.filter (hasKey key) ms.
Proof.
  induction ms as [|m ms IH]; simpl; [reflexivity|].
  destruct (hasKey key m) eqn:E; [|exact IH]. simpl. rewrite E, IH. reflexivity.
Qed.

(** Filtering the members of a list of groups by a key gives the group with
    that key, or nothing. *)
Lemma filter_groups ms key l :
  NoDup (map Key l) ->
  Forall (fun g => Nodes g = List.filter (hasKey (Key g)) ms) l ->
  (key ∉ map Key l -> List.filter (hasKey key) (concat (map Nodes l)) = [])
  /\ (key ∈ map Key l ->
      List.filter (hasKey key) (concat (map Nodes l)) = List.filter (hasKey key) ms).
Proof.
  induction l as [|g l IH]; intros Hnd Hg; simpl.
  - split; [reflexivity|]. intros Hin. apply elem_of_nil in Hin. contradiction.
  - apply NoDup_cons in Hnd as [Hgl Hnd]. apply Forall_cons in Hg as [Hgg Hg].
    destruct (IH Hnd Hg) as [IHout IHin].
    rewrite List.filter_app, Hgg.
    destruct (decide (key = Key g)) as [->|Hne].
    + split; [intros Hout; exfalso; apply Hout; left|]. intros _.
      rewrite filter_hasKey_same, (IHout Hgl). apply app_nil_r.
    + rewrite (filter_hasKey_other _ _ _ Hne). simpl. split.
      * intros Hout. apply IHout. intros Hin. apply Hout. right. exact Hin.
      * intros Hin. apply IHin. apply elem_of_cons in Hin as [E|Hin]; [contradiction|exact Hin].
Qed.

Lemma groupOf_nodes P lat long ms g :
  groupOf P lat long ms g -> Nodes g = List.filter (hasKey (Key g)) ms.
Proof. intros [H _]. exact H. Qed.

Lemma getClosestSerfNodes_neverSplit P ms k lat long r :
  getClosestSerfNodes P ms k lat long = Some r -> neverSplit ms r.
Proof.
  intros Hr.
  destruct (getClosestSerfNodes_groups P ms k lat long)
    as (nd & j & r' & Hnd & Hgr & Hr' & Heq & _).
  rewrite Hr in Hr'. injection Hr' as <-.
  pose proof (grouped_Permutation _ _ _ _ _ _ (Slice_perm lessDistance nd) Hgr)
    as (Hnodup & Hg & _).
  set (sorted := sort.Slice lessDistance nd) in *.
  assert (Hnodup' : NoDup (map Key (take j sorted))).
  { rewrite <- (take_drop j sorted), fmap_app in Hnodup.
    apply NoDup_app in Hnodup as [H _]. exact H. }
  assert (Hg' : Forall (fun g => Nodes g = List.filter (hasKey (Key g)) ms) (take j sorted)).
  { apply Forall_take. eapply Forall_impl; [exact Hg|]. intros g. apply groupOf_nodes. }
  intros key. destruct (filter_groups ms key _ Hnodup' Hg') as [Hout Hin].
  rewrite Heq. destruct (decide (key ∈ map Key (take j sorted))); auto.
Qed.

Lemma StronglySorted_lookup {A} (R : A -> A -> Prop) l :
  StronglySorted R l ->
  forall i j a b, (i < j)%nat -> l !! i = Some a -> l !! j = Some b -> R a b.
Proof.
  induction 1 as [|x l Hl IH Hx]; intros i j a b Hij Hi Hj.
  - rewrite lookup_nil in Hi. discriminate.
  - destruct j as [|j]; [lia|]. simpl in Hj. destruct i as [|i]; simpl in Hi.
    + injection Hi as <-. rewrite Forall_forall in Hx. apply Hx.
      apply list_elem_of_lookup. eauto.
    + apply (IH i j); [lia|assumption|assumption].
Qed.

(** Groups in order of distance, each with members at the group's distance:
    the members, one group after the other, are in order of distance. *)
Lemma sorted_groups_members (d : Member -> float64) l :
  StronglySorted (fun g h => lessDistance g h = true) l ->
  Forall (fun g => Distance g <> FNaN /\ Forall (fun n => d n = Distance g) (Nodes g)) l ->
  StronglySorted (fun a b => fle (d a) (d b) = true) (concat (map Nodes l)).
Proof.
  induction 1 as [|g l Hl IH Hg]; intros Hall; simpl; [constructor|].
  apply Forall_cons in Hall as [[Hnan Hsame] Hall].
  rewrite Forall_forall in Hsame.
  apply StronglySorted_app_2; [| |apply IH; exact Hall].
  - intros a b Ha Hb. rewrite (Hsame a Ha).
    apply list_elem_of_In, in_concat in Hb as (ns & Hns & Hb).
    apply list_elem_of_In in Hns, Hb.
    apply list_elem_of_fmap in Hns as (h & -> & Hh).
    rewrite Forall_forall in Hg, Hall.
    destruct (Hall h Hh) as [_ Hsameh]. rewrite Forall_forall in Hsameh.
    rewrite (Hsameh b Hb). apply (Hg h Hh).
  - assert (Hd : Forall (fun n => d n = Distance g) (Nodes g))
      by (apply Forall_forall; exact Hsame).
    clear -Hd Hnan. induction Hd as [|n ns Hn Hns IHn]; constructor; [exact IHn|].
    eapply Forall_impl; [exact Hns|]. intros b Hb. simpl in Hb.
    rewrite Hn, Hb. apply fle_refl. exact Hnan.
Qed.

Lemma memberDistance_location P lat long m1 m2 :
  getMemberLocation m1 = getMemberLocation m2 ->
  memberDistance P lat long m1 = memberDistance P lat long m2.
Proof. unfold memberDistance. intros ->. reflexivity. Qed.

Lemma groupOf_head P lat long ms g :
  groupOf P lat long ms g ->
  exists m, head (Nodes g) = Some m /\ m ∈ ms /\ memberKey m = Key g
            /\ Latitude g = fst (P (tag m "latitude"))
            /\ Longitude g = fst (P (tag m "longitude"))
            /\ Distance g = getDistance lat long (Latitude g) (Longitude g)
            /\ Distance g = memberDistance P lat long m.
Proof.
  intros [Hn (m & Hhead & Hlat & Hlon & Hd)]. exists m.
  assert (Hin : m ∈ Nodes g) by (eapply head_Some_elem_of; exact Hhead).
  rewrite Hn in Hin. apply list_elem_of_In, filter_In in Hin as [Hin Hk].
  apply hasKey_true in Hk. apply list_elem_of_In in Hin.
  repeat (split; [assumption|]).
  rewrite Hd, Hlat, Hlon. reflexivity.
Qed.

(** C2. Candidates with the same location key are returned together or not
    at all. When no candidate's distance is NaN and candidates with the same
    key have the same tags, the returned list is in order of non-decreasing
    distance from the origin. *)
Theorem C2_getClosestSerfNodes_whole_groups_in_order
    (ParseFloat : string -> float64 * option strconv.NumError)
    (serfMembers : list Member) (selectNodeCount : Z) (lat long : float64) :
  exists r,
    getClosestSerfNodes ParseFloat serfMembers selectNodeCount lat long = Some r
    /\ neverSplit serfMembers r
    /\ ((forall m, m ∈ serfMembers -> memberDistance ParseFloat lat long m <> FNaN) ->
        (forall m1 m2, m1 ∈ serfMembers -> m2 ∈ serfMembers ->
                       memberKey m1 = memberKey m2 ->
                       getMemberLocation m1 = getMemberLocation m2) ->
        orderedByDistance ParseFloat lat long r).
Proof.
  destruct (getClosestSerfNodes_groups ParseFloat serfMembers selectNodeCount lat long)
    as (nd & j & r & Hnd & Hgr & Hr & Heq & _).
  exists r. split; [exact Hr|].
  split; [eapply getClosestSerfNodes_neverSplit; exact Hr|].
  intros Hnan Hloc.
  destruct Hgr as (_ & Hg & _).
  set (d := memberDistance ParseFloat lat long).
  assert (Hok : Forall (fun g => Distance g <> FNaN
                                 /\ Forall (fun n => d n = Distance g) (Nodes g)) nd).
  { eapply Forall_impl; [exact Hg|]. intros g Hgg. simpl.
    destruct (groupOf_head _ _ _ _ _ Hgg) as (m & _ & Hin & Hk & _ & _ & _ & Hd).
    split; [rewrite Hd; apply Hnan, Hin|].
    rewrite (groupOf_nodes _ _ _ _ _ Hgg). apply Forall_forall. intros n Hn.
    apply list_elem_of_In, filter_In in Hn as [Hn Hkn].
    apply hasKey_true in Hkn. apply list_elem_of_In in Hn.
    rewrite Hd. apply memberDistance_location, Hloc; [assumption|assumption|congruence]. }
  assert (Hsorted : StronglySorted (fun g h => lessDistance g h = true)
                                   (sort.Slice lessDistance nd)).
  { apply (Slice_sorted lessDistance (fun g => Distance g <> FNaN)).
    - intros a b Ha Hb. apply fle_total; assumption.
    - intros a b c. apply fle_trans.
    - eapply Forall_impl; [exact Hok|]. intros g [H _]. exact H. }
  rewrite <- (Slice_perm lessDistance nd) in Hok.
  set (sorted := sort.Slice lessDistance nd) in *.
  rewrite <- (take_drop j sorted) in Hsorted, Hok.
  apply StronglySorted_app_1_l in Hsorted. apply Forall_app in Hok as [Hok _].
  pose proof (sorted_groups_members d _ Hsorted Hok) as Hmembers.
  rewrite <- Heq in Hmembers.
  intros i i' a b Hlt Ha Hb _ _.
  exact (StronglySorted_lookup _ _ Hmembers i i' a b Hlt Ha Hb).
Qed.


Lemma getMemberLocation_memberAt n x y : getMemberLocation (memberAt n x y) = (x, y).
Proof.
  unfold getMemberLocation, tag, memberAt. simpl.
  rewrite lookup_insert_eq, lookup_insert_ne, lookup_insert_eq by discriminate.
  reflexivity.
Qed.

Lemma ParseFloat_0 : strconv.ParseFloat "0" = (FNum 0, None).
Proof.
  replace (FNum 0) with (strconv.decimal false 0 0); [reflexivity|].
  unfold strconv.decimal. f_equal. simpl. lra.
Qed.

Lemma ParseFloat_90 : strconv.ParseFloat "90" = (FNum 90, None).
Proof.
  replace (FNum 90) with (strconv.decimal false 90 0); [reflexivity|].
  unfold strconv.decimal. f_equal. simpl. lra.
Qed.

Lemma ParseFloat_NaN : strconv.ParseFloat "NaN" = (FNaN, None).
Proof. reflexivity. Qed.



Lemma addMember_memberAt P lat long nd n x y :
  addMember P lat long nd (memberAt n x y)
  = if (findInSlice nd (locationKey x y) =? -1)%Z
    then Some (nd ++ [ {| Key := locationKey x y;
                          Latitude := fst (P x);
                          Longitude := fst (P y);
                          Distance := getDistance lat long (fst (P x)) (fst (P y));
                          Nodes := [memberAt n x y] |} ])
    else node ← at_index nd (findInSlice nd (locationKey x y));
         Some (<[Z.to_nat (findInSlice nd (locationKey x y)) := withNode node (memberAt n x y)]> nd).
Proof. unfold addMember. rewrite getMemberLocation_memberAt. reflexivity. Qed.

Lemma memberDistance_memberAt P lat long n x y :
  memberDistance P lat long (memberAt n x y) = getDistance lat long (fst (P x)) (fst (P y)).
Proof. unfold memberDistance. rewrite getMemberLocation_memberAt. reflexivity. Qed.

Lemma addMembers_cons P lat long nd m rest :
  addMembers P lat long nd (m :: rest)
  = nd' ← addMember P lat long nd m; addMembers P lat long nd' rest.
Proof. reflexivity. Qed.

Lemma addMembers_new P lat long nd n x y rest :
  findInSlice nd (locationKey x y) = (-1)%Z ->
  addMembers P lat long nd (memberAt n x y :: rest)
  = addMembers P lat long
      (nd ++ [ {| Key := locationKey x y;
                  Latitude := fst (P x);
                  Longitude := fst (P y);
                  Distance := getDistance lat long (fst (P x)) (fst (P y));
                  Nodes := [memberAt n x y] |} ]) rest.
Proof. intros H. rewrite addMembers_cons, addMember_memberAt, H. reflexivity. Qed.

Local Arguments getDistance : simpl never.
Local Arguments strconv.ParseFloat : simpl never.
Local Arguments memberAt : simpl never.

Lemma groups_east_lost_here :
  nodeDistancesOf strconv.ParseFloat [east; lost; here] (FNum 0) (FNum 0)
  = Some [ {| Key := "0-90"; Latitude := FNum 0; Longitude := FNum 90;
              Distance := FNum (6371 * (2 * (PI / 2))); Nodes := [east] |};
           {| Key := "NaN-0"; Latitude := FNaN; Longitude := FNum 0;
              Distance := FNaN; Nodes := [lost] |};
           {| Key := "0-0"; Latitude := FNum 0; Longitude := FNum 0;
              Distance := FNum 0; Nodes := [here] |} ].
Proof.
  unfold nodeDistancesOf, east, lost, here.
  rewrite !addMembers_new by reflexivity.
  rewrite ParseFloat_0, ParseFloat_90, ParseFloat_NaN. simpl.
  rewrite getDistance_quarter_turn, getDistance_NaN_lat, getDistance_same.
  reflexivity.
Qed.

Lemma getClosestSerfNodes_sorted P ms k lat long nd :
  nodeDistancesOf P ms lat long = Some nd ->
  getClosestSerfNodes P ms k lat long
  = Some (selectNodes k [] (sort.Slice lessDistance nd)).
Proof. intros H. unfold getClosestSerfNodes. rewrite H. reflexivity. Qed.


Lemma fle_halfturn_0 : fle (FNum (6371 * (2 * (PI / 2)))) (FNum 0) = false.
Proof.
  destruct (fle _ _) eqn:E; [|reflexivity].
  apply fle_num in E. pose proof PI_RGT_0. lra.
Qed.

(** C2, as stated, fails: a candidate whose latitude tag reads "NaN" has
    distance NaN, no comparison with it holds, and the sort leaves the
    candidate at distance 0 behind the one a quarter turn away. *)
Lemma C2_counterexample_NaN_distance_breaks_order :
  getClosestSerfNodes strconv.ParseFloat [east; lost; here] 3 (FNum 0) (FNum 0)
  = Some [east; lost; here]
  /\ ~ orderedByDistance strconv.ParseFloat (FNum 0) (FNum 0) [east; lost; here].
Proof.
  split.
  - rewrite (getClosestSerfNodes_sorted _ _ _ _ _ _ groups_east_lost_here).
    reflexivity.
  - intros Hord.
    specialize (Hord 0%nat 2%nat east here ltac:(lia) eq_refl eq_refl).
    unfold east, here in Hord. rewrite !memberDistance_memberAt in Hord.
    rewrite ParseFloat_0, ParseFloat_90 in Hord. simpl fst in Hord.
    rewrite getDistance_quarter_turn, getDistance_same, fle_halfturn_0 in Hord.
    discriminate Hord; discriminate.
Qed.




Lemma addMembers_seen P lat long nd n x y rest (k : nat) node :
  findInSlice nd (locationKey x y) = Z.of_nat k ->
  nd !! k = Some node ->
  addMembers P lat long nd (memberAt n x y :: rest)
  = addMembers P lat long (<[k := withNode node (memberAt n x y)]> nd) rest.
Proof.
  intros Hfind Hk. rewrite addMembers_cons, addMember_memberAt, Hfind.
  assert (Hne : (Z.of_nat k =? -1)%Z = false) by lia. rewrite Hne.
  unfold at_index. assert (Hlt : (Z.of_nat k <? 0)%Z = false) by lia. rewrite Hlt.
  rewrite Nat2Z.id, Hk. reflexivity.
Qed.

Lemma ParseFloat_1 : strconv.ParseFloat "1" = (FNum 1, None).
Proof.
  replace (FNum 1) with (strconv.decimal false 1 0); [reflexivity|].
  unfold strconv.decimal. f_equal. simpl. lra.
Qed.

Lemma ParseFloat_minus_0 : strconv.ParseFloat "-0" = (FNum 0, None).
Proof.
  replace (FNum 0) with (strconv.decimal true 0 0); [reflexivity|].
  unfold strconv.decimal. f_equal. simpl. lra.
Qed.

Lemma ParseFloat_90_dash : strconv.ParseFloat "90-" = (FNum 0, Some strconv.ErrSyntax).
Proof. reflexivity. Qed.

(** A quarter turn of latitude, to the pole. *)
Lemma getDistance_pole :
  getDistance (FNum 0) (FNum 0) (FNum 90) (FNum 0) = FNum (6371 * (2 * (PI / 2))).
Proof.
  rewrite getDistance_unfold, !radians_num, hav_a_num.
  replace (0 * PI / 180)%R with 0%R by field.
  replace (90 * PI / 180 - 0)%R with (PI / 2)%R by field.
  replace (90 * PI / 180)%R with (PI / 2)%R by field.
  rewrite Rminus_diag, sin_0, cos_0, sin_PI2, cos_PI2.
  replace (1 * 1 + 1 * 0 * 0 * 0)%R with 1%R by ring.
  rewrite hav_d_num by lra.
  rewrite Rminus_diag, sqrt_0, sqrt_1, atan2_1_0. reflexivity.
Qed.

Lemma groups_north_dash_near :
  nodeDistancesOf strconv.ParseFloat [north; dash; near] (FNum 0) (FNum 0)
  = Some [ {| Key := "90--0"; Latitude := FNum 90; Longitude := FNum 0;
              Distance := FNum (6371 * (2 * (PI / 2))); Nodes := [north; dash] |};
           {| Key := "1-0"; Latitude := FNum 1; Longitude := FNum 0;
              Distance := FNum (6371 * (2 * (PI / 180))); Nodes := [near] |} ].
Proof.
  unfold nodeDistancesOf, north, dash, near.
  rewrite addMembers_new by reflexivity.
  erewrite (addMembers_seen _ _ _ _ _ _ _ _ 0%nat); [|reflexivity|reflexivity].
  rewrite addMembers_new by reflexivity.
  rewrite ParseFloat_0, ParseFloat_90, ParseFloat_1, ParseFloat_minus_0. simpl.
  rewrite getDistance_pole, getDistance_one_degree.
  reflexivity.
Qed.

Lemma fle_degree_halfturn :
  fle (FNum (6371 * (2 * (PI / 180)))) (FNum (6371 * (2 * (PI / 2)))) = true.
Proof. apply fle_num. pose proof PI_RGT_0. lra. Qed.

Lemma fle_degree_0 : fle (FNum (6371 * (2 * (PI / 180)))) (FNum 0) = false.
Proof.
  destruct (fle _ _) eqn:E; [|reflexivity].
  apply fle_num in E. pose proof PI_RGT_0. lra.
Qed.

(** Without NaN, the order still fails when two members with different tags
    share a key: [dash], whose own tags place it at distance 0, is grouped
    with [north] at the pole and returned behind [near]. *)
Lemma shared_key_breaks_order :
  memberKey north = memberKey dash
  /\ getMemberLocation north <> getMemberLocation dash
  /\ memberDistance strconv.ParseFloat (FNum 0) (FNum 0) dash = FNum 0
  /\ memberDistance strconv.ParseFloat (FNum 0) (FNum 0) near
     = FNum (6371 * (2 * (PI / 180)))
  /\ getClosestSerfNodes strconv.ParseFloat [north; dash; near] 3 (FNum 0) (FNum 0)
     = Some [near; north; dash]
  /\ ~ orderedByDistance strconv.ParseFloat (FNum 0) (FNum 0) [near; north; dash].
Proof.
  assert (Hdash : memberDistance strconv.ParseFloat (FNum 0) (FNum 0) dash = FNum 0).
  { unfold dash. rewrite memberDistance_memberAt, ParseFloat_90_dash, ParseFloat_0.
    apply getDistance_same. }
  assert (Hnear : memberDistance strconv.ParseFloat (FNum 0) (FNum 0) near
                  = FNum (6371 * (2 * (PI / 180)))).
  { unfold near. rewrite memberDistance_memberAt, ParseFloat_1, ParseFloat_0.
    apply getDistance_one_degree. }
  split; [reflexivity|].
  split; [unfold north, dash; rewrite !getMemberLocation_memberAt; discriminate|].
  split; [exact Hdash|]. split; [exact Hnear|]. split.
  - rewrite (getClosestSerfNodes_sorted _ _ _ _ _ _ groups_north_dash_near).
    unfold sort.Slice, sort.insertionSort.
    cbn [fold_left sort.insertLeft]. unfold lessDistance. cbn [Distance].
    rewrite fle_degree_halfturn. reflexivity.
  - intros Hord.
    specialize (Hord 0%nat 2%nat near dash ltac:(lia) eq_refl eq_refl).
    rewrite Hdash, Hnear, fle_degree_0 in Hord.
    discriminate Hord; discriminate.
Qed.

(** C2, at two candidates with numeric tags and a wanted count of one. *)
Lemma C2_witness_two_candidates :
  exists r,
    getClosestSerfNodes strconv.ParseFloat [east; here] 1 (FNum 0) (FNum 0) = Some r
    /\ neverSplit [east; here] r
    /\ orderedByDistance strconv.ParseFloat (FNum 0) (FNum 0) r.
Proof.
  destruct (C2_getClosestSerfNodes_whole_groups_in_order
              strconv.ParseFloat [east; here] 1 (FNum 0) (FNum 0))
    as (r & Hr & Hsplit & Hord).
  exists r. split; [exact Hr|]. split; [exact Hsplit|]. apply Hord.
  - intros m Hm. apply elem_of_cons in Hm as [->|Hm];
      [|apply list_elem_of_singleton in Hm as ->];
      unfold east, here; rewrite memberDistance_memberAt.
    + rewrite ParseFloat_0, ParseFloat_90. simpl fst.
      rewrite getDistance_quarter_turn. discriminate.
    + rewrite ParseFloat_0. simpl fst. rewrite getDistance_same. discriminate.
  - intros m1 m2 H1 H2.
    apply elem_of_cons in H1 as [->|H1]; [|apply list_elem_of_singleton in H1 as ->];
      (apply elem_of_cons in H2 as [->|H2]; [|apply list_elem_of_singleton in H2 as ->]);
      try reflexivity;
      unfold memberKey, east, here; rewrite !getMemberLocation_memberAt; discriminate.
Defined.

(** C3, at two candidates and a wanted count of one. *)
Lemma C3_witness_two_candidates :
  exists r,
    getClosestSerfNodes strconv.ParseFloat [east; here] 1 (FNum 0) (FNum 0) = Some r
    /\ (1 <= Z.of_nat (length r))%Z.
Proof.
  destruct (C3_getClosestSerfNodes_count
              strconv.ParseFloat [east; here] 1 (FNum 0) (FNum 0))
    as (r & Hr & Hatleast & _).
  exists r. split; [exact Hr|]. apply Hatleast. simpl. lia.
Defined.



(** ** Leaving the process *)

(** C8. When the error is [context.Canceled], [exit] leaves with code 0
    whatever code it was given, prints no error and logs no failure; the
    clean-up of the downloaded file is all it does. *)
Theorem C8_exit_on_cancellation_is_clean (exitCode : Z) (fn fa : string) (w : Effects) :
  exit exitCode fn fa (Some context_Canceled) w = (cleanup fn fa w, 0%Z)
  /\ stdout (fst (exit exitCode fn fa (Some context_Canceled) w)) = stdout w
  /\ glog_errors (fst (exit exitCode fn fa (Some context_Canceled) w)) = glog_errors w.
Proof.
  unfold exit. simpl. unfold cleanup.
  destruct (negb (String.eqb fn fa)); simpl; auto.
Qed.

(** For contrast: any other error with a non-zero code is printed, logged
    and the code is kept. *)
Lemma exit_reports_failure (exitCode : Z) (fn fa : string) (e : error) (w : Effects) :
  e <> context_Canceled -> exitCode <> 0%Z ->
  snd (exit exitCode fn fa (Some e) w) = exitCode
  /\ glog_errors (fst (exit exitCode fn fa (Some e) w)) <> glog_errors w.
Proof.
  intros He Hc. unfold exit.
  assert (Hcan : is_context_Canceled (Some e) = false) by (destruct e; simpl; congruence).
  rewrite Hcan. simpl negb. cbv iota.
  assert (Hz : (exitCode =? 0)%Z = false) by lia.
  rewrite Hz. simpl. split; [reflexivity|].
  unfold cleanup. destruct (negb (String.eqb fn fa)); simpl;
    intros E; apply (f_equal length) in E; rewrite length_app in E; simpl in E; lia.
Qed.

(** ** Playback check *)

Lemma fle_0_nonPositive d : fle d (FNum 0) = true <-> nonPositive d.
Proof.
  unfold nonPositive. destruct d as [r| | |]; simpl.
  - destruct (Rle_dec r 0); split.
    + intros _. right. exists r. auto.
    + reflexivity.
    + discriminate.
    + intros [H|(r' & H & Hr)]; [discriminate|]. injection H as <-. contradiction.
  - split; [discriminate|]. intros [H|(r' & H & _)]; discriminate.
  - split; [auto|reflexivity].
  - split; [discriminate|]. intros [H|(r' & H & _)]; discriminate.
Qed.

Section CheckPlaybackFacts.
Variable GetAsset : string -> bool -> Asset + error.
Variable GetPlaybackInfo : string -> PlaybackInfo + error.
Variable CheckStats : string -> Z -> Z -> Stats + error.
Variable PlaybackInfoSourceTypeHLS : string.
Variable fmt_f : float64 -> string.
Variable Duration_of_float64 : float64 -> Z.

Local Abbreviation check :=
  (checkPlayback GetAsset GetPlaybackInfo CheckStats PlaybackInfoSourceTypeHLS
                 fmt_f Duration_of_float64).
Local Abbreviation hls := (hlsUrl PlaybackInfoSourceTypeHLS).

Lemma hlsUrl_none sources :
  (forall src, src ∈ sources -> Type_ src <> PlaybackInfoSourceTypeHLS) ->
  hls sources = EmptyString.
Proof.
  induction sources as [|src rest IH]; intros Hnone; simpl; [reflexivity|].
  destruct (String.eqb_spec (Type_ src) PlaybackInfoSourceTypeHLS) as [E|E].
  - exfalso. apply (Hnone src); [left|exact E].
  - apply IH. intros s Hs. apply Hnone. right. exact Hs.
Qed.

Lemma hlsUrl_some sources :
  hls sources <> EmptyString ->
  exists src, src ∈ sources /\ Type_ src = PlaybackInfoSourceTypeHLS
              /\ Url src = hls sources.
Proof.
  induction sources as [|src rest IH]; simpl; [congruence|].
  destruct (String.eqb_spec (Type_ src) PlaybackInfoSourceTypeHLS) as [E|E].
  - intros _. exists src. split; [left|auto].
  - intros H. destruct (IH H) as (s & Hs & Ht & Hu). exists s. split; [right; exact Hs|auto].
Qed.

(** C6. [checkPlayback] fails with the missing-duration error when the
    asset's duration is not positive; it fails when the playback info has no
    HLS source, with the no-HLS-source error once the duration check has
    passed; it fails when the manifest shows at most one rendition, with the
    no-renditions error once the earlier checks have passed; and it returns
    no error only if the duration is positive, an HLS source is present and
    more than one rendition was seen. *)
Theorem C6_checkPlayback_failures (assetID : string) :
  (forall asset,
      GetAsset assetID false = inl asset ->
      nonPositive (DurationSec (VideoSpec asset)) ->
      check assetID
      = Some (errorString ("missing asset duration ("
                           +:+ fmt_f (DurationSec (VideoSpec asset)) +:+ ")")))
  /\ (forall asset pinfo,
         GetAsset assetID false = inl asset ->
         GetPlaybackInfo (PlaybackID asset) = inl pinfo ->
         (forall src, src ∈ Source (Meta pinfo) -> Type_ src <> PlaybackInfoSourceTypeHLS) ->
         check assetID <> None
         /\ (~ nonPositive (DurationSec (VideoSpec asset)) ->
             check assetID = Some (errorString "no HLS source found in playback info")))
  /\ (forall asset pinfo stats,
         GetAsset assetID false = inl asset ->
         GetPlaybackInfo (PlaybackID asset) = inl pinfo ->
         CheckStats (hls (Source (Meta pinfo)))
                    (manifestDuration Duration_of_float64 asset)
                    maxTimeToWaitForManifest = inl stats ->
         (size (SegmentsNum stats) <= 1)%nat ->
         check assetID <> None
         /\ (~ nonPositive (DurationSec (VideoSpec asset)) ->
             hls (Source (Meta pinfo)) <> EmptyString ->
             check assetID
             = Some (errorString "no transcoded renditions found in playlist")))
  /\ (check assetID = None ->
      exists asset pinfo stats,
        GetAsset assetID false = inl asset
        /\ ~ nonPositive (DurationSec (VideoSpec asset))
        /\ GetPlaybackInfo (PlaybackID asset) = inl pinfo
        /\ (exists src, src ∈ Source (Meta pinfo)
                        /\ Type_ src = PlaybackInfoSourceTypeHLS)
        /\ CheckStats (hls (Source (Meta pinfo)))
                      (manifestDuration Duration_of_float64 asset)
                      maxTimeToWaitForManifest = inl stats
        /\ (1 < size (SegmentsNum stats))%nat).
Proof.
  unfold checkPlayback, manifestDuration.
  split; [|split; [|split]].
  - intros asset -> Hd. apply fle_0_nonPositive in Hd. rewrite Hd. reflexivity.
  - intros asset pinfo -> Hp Hnone.
    rewrite Hp, (hlsUrl_none _ Hnone). simpl.
    destruct (fle (DurationSec (VideoSpec asset)) (FNum 0)) eqn:Hd.
    + split; [discriminate|]. intros Hpos. exfalso. apply Hpos, fle_0_nonPositive, Hd.
    + split; [discriminate|reflexivity].
  - intros asset pinfo stats -> Hp Hs Hn. rewrite Hp.
    destruct (fle (DurationSec (VideoSpec asset)) (FNum 0)) eqn:Hd.
    + split; [discriminate|]. intros Hpos. exfalso. apply Hpos, fle_0_nonPositive, Hd.
    + destruct (String.eqb_spec (hls (Source (Meta pinfo))) EmptyString) as [E|E].
      * split; [discriminate|]. intros _ Hne. contradiction.
      * rewrite Hs.
        assert (Hle : (Z.of_nat (size (SegmentsNum stats)) <=? 1)%Z = true) by lia.
        rewrite Hle. split; [discriminate|reflexivity].
  - destruct (GetAsset assetID false) as [asset|e] eqn:Ha; [|discriminate].
    destruct (fle (DurationSec (VideoSpec asset)) (FNum 0)) eqn:Hd; [discriminate|].
    destruct (GetPlaybackInfo (PlaybackID asset)) as [pinfo|e] eqn:Hp; [|discriminate].
    destruct (String.eqb_spec (hls (Source (Meta pinfo))) EmptyString) as [E|E];
      [discriminate|].
    destruct (CheckStats _ _ _) as [stats|e] eqn:Hs; [|discriminate].
    destruct (Z.leb_spec (Z.of_nat (size (SegmentsNum stats))) 1) as [Hle|Hgt];
      [discriminate|].
    intros _. exists asset, pinfo, stats.
    split; [reflexivity|]. split.
    { intros Hnp. apply fle_0_nonPositive in Hnp. congruence. }
    split; [exact Hp|]. split.
    { destruct (hlsUrl_some _ E) as (src & Hin & Ht & _). exists src. auto. }
    split; [exact Hs|lia].
Qed.

End CheckPlaybackFacts.

(** C6, at an asset whose duration is 0. *)
Lemma C6_witness_zero_duration :
  checkPlayback (fun _ _ => inl zeroDurationAsset)
                (fun _ => inr (errorString "not called"))
                (fun _ _ _ => inr (errorString "not called"))
                "html5/application/vnd.apple.mpegurl"
                (fun _ => "0.000000") (fun _ => 0%Z) "asset"
  = Some (errorString "missing asset duration (0.000000)").
Proof.
  apply (proj1 (C6_checkPlayback_failures
                  (fun _ _ => inl zeroDurationAsset)
                  (fun _ => inr (errorString "not called"))
                  (fun _ _ _ => inr (errorString "not called"))
                  "html5/application/vnd.apple.mpegurl"
                  (fun _ => "0.000000") (fun _ => 0%Z) "asset")
               zeroDurationAsset eq_refl).
  right. exists 0%R. split; [reflexivity|lra].
Defined.


(** ** Patching the host of a URL *)

(** C9. [patchURLHost] returns the target string itself when one of the two
    URLs does not parse. When both parse and the target's host contains the
    source's host, it returns the parsed target written back by [String],
    with no component replaced. Otherwise it returns the parsed target
    written back with the scheme and the host of the source, every other
    component being the target's. *)
Theorem C9_patchURLHost_cases
    (url_Parse : string -> url.URL + error) (url_String : url.URL -> string)
    (target src : string) :
  (forall e, url_Parse target = inr e ->
             patchURLHost url_Parse url_String target src = target)
  /\ (forall e, url_Parse src = inr e ->
                patchURLHost url_Parse url_String target src = target)
  /\ (forall targetURL srcURL,
         url_Parse target = inl targetURL -> url_Parse src = inl srcURL ->
         strings.Contains (url.Host targetURL) (url.Host srcURL) = true ->
         patchURLHost url_Parse url_String target src = url_String targetURL)
  /\ (forall targetURL srcURL,
         url_Parse target = inl targetURL -> url_Parse src = inl srcURL ->
         strings.Contains (url.Host targetURL) (url.Host srcURL) = false ->
         patchURLHost url_Parse url_String target src
         = url_String (withSchemeHost targetURL (url.Scheme srcURL) (url.Host srcURL)))
  /\ (forall u scheme host,
         let patched := withSchemeHost u scheme host in
         url.Scheme patched = scheme
         /\ url.Host patched = host
         /\ url.Opaque patched = url.Opaque u
         /\ url.User patched = url.User u
         /\ url.Path patched = url.Path u
         /\ url.RawPath patched = url.RawPath u
         /\ url.OmitHost patched = url.OmitHost u
         /\ url.ForceQuery patched = url.ForceQuery u
         /\ url.RawQuery patched = url.RawQuery u
         /\ url.Fragment patched = url.Fragment u
         /\ url.RawFragment patched = url.RawFragment u).
Proof.
  unfold patchURLHost. split; [|split; [|split; [|split]]].
  - intros e ->. reflexivity.
  - intros e Hs. destruct (url_Parse target); [rewrite Hs|]; reflexivity.
  - intros t s -> -> Hc. rewrite Hc. reflexivity.
  - intros t s -> -> Hc. rewrite Hc. reflexivity.
  - intros u scheme host. simpl. repeat (split; [reflexivity|]). reflexivity.
Qed.

(** C9, as stated, fails: the target's host contains the source's host, and
    yet the result is not the target: the scheme comes back in lower case. *)
Lemma C9_counterexample_scheme_is_lowered :
  (exists targetURL srcURL,
      url.Parse "HTTPS://origin.livepeer.com/files" = inl targetURL
      /\ url.Parse "https://livepeer.com" = inl srcURL
      /\ strings.Contains (url.Host targetURL) (url.Host srcURL) = true)
  /\ patchURLHost url.Parse url.String
       "HTTPS://origin.livepeer.com/files" "https://livepeer.com"
     = "https://origin.livepeer.com/files"
  /\ patchURLHost url.Parse url.String
       "HTTPS://origin.livepeer.com/files" "https://livepeer.com"
     <> "HTTPS://origin.livepeer.com/files".
Proof.
  split; [|split].
  - eexists _, _. split; [reflexivity|]. split; reflexivity.
  - reflexivity.
  - discriminate.
Qed.

(** C9, at a target on another host than the source. *)
Lemma C9_witness_host_is_patched :
  patchURLHost url.Parse url.String
    "https://origin.livepeer.com/files" "http://livepeer.monster"
  = "http://livepeer.monster/files".
Proof.
  destruct (C9_patchURLHost_cases url.Parse url.String
              "https://origin.livepeer.com/files" "http://livepeer.monster")
    as (_ & _ & _ & Hpatch & _).
  rewrite (Hpatch _ _ eq_refl eq_refl eq_refl).
  reflexivity.
Defined.

(** ** The test session *)

Section StartFacts.
Variable vodImportUrl : string.

Lemma started_inv gctx_done : sessionInv (started gctx_done).
Proof.
  split; simpl; try discriminate; try congruence.
Qed.

Lemma phaseReturned_inv s p r :
  phases s p = None -> sessionInv s -> sessionInv (phaseReturned p r s).
Proof.
  intros Hp [Hno Herr Hcan Hder Hres].
  assert (Hrunning : result s = None).
  { destruct (result s) as [r0|] eqn:E; [|reflexivity].
    destruct (Hres r0 eq_refl) as (_ & Hall & _). exfalso. exact (Hall p Hp). }
  assert (Hkeep : forall q x, phases s q = Some x ->
                              phases (phaseReturned p r s) q = Some x).
  { intros q x Hq. simpl. case_decide; [subst q; congruence|exact Hq]. }
  destruct s as [ph [er cd] cdone rl res]. simpl in *.
  destruct r as [e|]; [destruct er as [e0|]|].
  - (* a later failure: the first error stays *)
    split; simpl.
    + discriminate.
    + intros e' E. destruct (Herr e' E) as (q & Hq). exists q. apply (Hkeep q _ Hq).
    + exact Hcan.
    + exact Hder.
    + rewrite Hrunning. discriminate.
  - (* the first failure *)
    split; simpl.
    + discriminate.
    + intros e' E. injection E as <-. exists p. case_decide; [reflexivity|contradiction].
    + reflexivity.
    + reflexivity.
    + rewrite Hrunning. discriminate.
  - (* a success *)
    split; simpl.
    + intros E q r. case_decide; [congruence|]. apply (Hno E).
    + intros e' E. destruct (Herr e' E) as (q & Hq). exists q. apply (Hkeep q _ Hq).
    + exact Hcan.
    + exact Hder.
    + rewrite Hrunning. discriminate.
Qed.

Lemma Cancel_inv s : sessionInv s -> sessionInv (Cancel s).
Proof.
  intros [Hno Herr Hcan Hder Hres]. split; simpl; auto.
  intros r Hr. destruct (Hres r Hr) as (? & ? & ?). auto.
Qed.

Lemma step_inv s s' : step vodImportUrl s s' -> sessionInv s -> sessionInv s'.
Proof.
  intros Hstep Hinv.
  destruct Hstep as [s p r Hp _|s Hdone Hrel|s|s Hall Hnone].
  - apply phaseReturned_inv; assumption.
  - apply Cancel_inv in Hinv. destruct Hinv as [Hno Herr Hcan Hder Hres].
    split; simpl; auto.
  - apply Cancel_inv; assumption.
  - destruct Hinv as [Hno Herr Hcan Hder Hres].
    split; unfold waitReturns; simpl; auto.
    intros r Hr. injection Hr as <-. auto.
Qed.

Lemma reachable_inv s : reachable vodImportUrl s -> sessionInv s.
Proof.
  induction 1 as [gctx_done|s s' _ IH Hstep];
    [apply started_inv|exact (step_inv s s' Hstep IH)].
Qed.


(** C10. When [Start] has returned, the session's context is cancelled and
    its [Done] signal has fired; and once cancelled, the context stays so at
    every later step. *)
Theorem C10_Start_cancels_before_returning (s : session) :
  reachable vodImportUrl s ->
  (forall r, result s = Some r -> Done s = true)
  /\ (Done s = true -> forall s', step vodImportUrl s s' -> Done s' = true).
Proof.
  intros Hreach. destruct (reachable_inv s Hreach) as [_ _ _ _ Hres]. split.
  - intros r Hr. destruct (Hres r Hr) as (_ & _ & H). exact H.
  - intros Hd s' Hstep. destruct Hstep; unfold Done in *; simpl; auto.
Qed.

(** Every outcome of the three phases is the outcome of a run in which
    [Start] returns. *)
Lemma Start_returns (gctx_done : bool) (r1 r2 r3 : option error) :
  phaseReturns vodImportUrl UrlImport r1 ->
  phaseReturns vodImportUrl DirectUpload r2 ->
  phaseReturns vodImportUrl ResumableUpload r3 ->
  exists s, reachable vodImportUrl s
            /\ phases s UrlImport = Some r1
            /\ phases s DirectUpload = Some r2
            /\ phases s ResumableUpload = Some r3
            /\ result s <> None.
Proof.
  intros H1 H2 H3.
  set (s1 := phaseReturned UrlImport r1 (started gctx_done)).
  set (s2 := phaseReturned DirectUpload r2 s1).
  set (s3 := phaseReturned ResumableUpload r3 s2).
  assert (R1 : reachable vodImportUrl s1).
  { eapply reachable_step; [apply reachable_started|].
    apply step_phase; [reflexivity|exact H1]. }
  assert (R2 : reachable vodImportUrl s2).
  { eapply reachable_step; [exact R1|]. apply step_phase; [reflexivity|exact H2]. }
  assert (R3 : reachable vodImportUrl s3).
  { eapply reachable_step; [exact R2|]. apply step_phase; [reflexivity|exact H3]. }
  exists (waitReturns s3). split.
  - eapply reachable_step; [exact R3|]. apply step_wait; [|reflexivity].
    intros p. destruct p; simpl; discriminate.
  - unfold waitReturns. simpl. repeat split; discriminate.
Qed.

End StartFacts.

Lemma failedRun_reachable vodImportUrl : reachable vodImportUrl failedRun.
Proof.
  set (s1 := phaseReturned DirectUpload (directUploadPhase (Some boom)) (started false)).
  set (s2 := phaseReturned UrlImport None s1).
  set (s3 := phaseReturned ResumableUpload None s2).
  assert (R1 : reachable vodImportUrl s1).
  { eapply reachable_step; [apply reachable_started|].
    apply step_phase; [reflexivity|apply returns_directUpload]. }
  assert (R2 : reachable vodImportUrl s2).
  { eapply reachable_step; [exact R1|]. apply step_phase; [reflexivity|].
    exact (returns_urlImport vodImportUrl (inl zeroDurationAsset)
             (fun _ => inl {| Task_ID := "task" |}) (fun _ => None)). }
  assert (R3 : reachable vodImportUrl s3).
  { eapply reachable_step; [exact R2|]. apply step_phase; [reflexivity|].
    exact (returns_resumableUpload vodImportUrl None). }
  change failedRun with (waitReturns s3).
  eapply reachable_step; [exact R3|]. apply step_wait; [|reflexivity].
  intros p. destruct p; simpl; discriminate.
Qed.


(** C10, at the same run. *)
Lemma C10_witness_direct_upload_fails :
  reachable "https://example.com/video.mp4" failedRun /\ Done failedRun = true.
Proof.
  pose proof (failedRun_reachable "https://example.com/video.mp4") as Hreach.
  split; [exact Hreach|].
  exact (proj1 (C10_Start_cancels_before_returning _ failedRun Hreach) _ eq_refl).
Defined.

(** * Further properties *)

(** ** [findInSlice] *)

Lemma findInSlice_from_first key slice : forall i,
  (0 <= i)%Z ->
  (Forall (fun g => Key g <> key) slice /\ findInSlice_from i slice key = (-1)%Z)
  \/ (exists k g, slice !! k = Some g /\ Key g = key
                  /\ Forall (fun g' => Key g' <> key) (take k slice)
                  /\ findInSlice_from i slice key = (i + Z.of_nat k)%Z).
Proof.
  induction slice as [|v rest IH]; intros i Hi; simpl.
  - left. split; [constructor|reflexivity].
  - destruct (String.eqb_spec (Key v) key) as [E|E].
    + right. exists 0%nat, v. split; [reflexivity|]. split; [exact E|].
      split; [constructor|lia].
    + destruct (IH (i + 1)%Z ltac:(lia)) as [[Hall Hres]|(k & g & Hk & Hg & Hbefore & Hres)].
      * left. split; [constructor; assumption|exact Hres].
      * right. exists (S k), g. split; [exact Hk|]. split; [exact Hg|].
        split; [simpl; constructor; assumption|lia].
Qed.

(** X1. [findInSlice] returns -1 exactly when no element has the key;
    any other result is the index of the first element with the key. *)
Theorem findInSlice_is_first_index (slice : list geolocateSerfNodes) (key : string) :
  (findInSlice slice key = (-1)%Z <-> forall v, v ∈ slice -> Key v <> key)
  /\ (findInSlice slice key <> (-1)%Z ->
      exists (k : nat) v,
        findInSlice slice key = Z.of_nat k
        /\ slice !! k = Some v /\ Key v = key
        /\ forall j v', (j < k)%nat -> slice !! j = Some v' -> Key v' <> key).
Proof.
  unfold findInSlice.
  destruct (findInSlice_from_first key slice 0%Z ltac:(lia))
    as [[Hall Hres]|(k & g & Hk & Hg & Hbefore & Hres)]; rewrite Hres.
  - split; [|congruence]. split; [|reflexivity].
    intros _ v Hv. rewrite Forall_forall in Hall. apply Hall, Hv.
  - split.
    + split; [lia|]. intros Hnone. exfalso. apply (Hnone g); [|exact Hg].
      apply list_elem_of_lookup. eauto.
    + intros _. exists k, g. split; [lia|]. split; [exact Hk|]. split; [exact Hg|].
      intros j v' Hj Hv'. rewrite Forall_forall in Hbefore. apply Hbefore.
      apply elem_of_take. eauto.
Qed.

(** ** The groups *)

(** X2. The first loop partitions the members by key: the keys of the
    groups are distinct, every group is non-empty and holds exactly the
    members with its key, in their order, and the groups together hold every
    member once. *)
Theorem nodeDistancesOf_partitions
    (ParseFloat : string -> float64 * option strconv.NumError)
    (serfMembers : list Member) (lat long : float64) :
  exists nd,
    nodeDistancesOf ParseFloat serfMembers lat long = Some nd
    /\ NoDup (map Key nd)
    /\ (forall g, g ∈ nd ->
          Nodes g <> [] /\ Nodes g = List.filter (hasKey (Key g)) serfMembers)
    /\ concat (map Nodes nd) ≡ₚ serfMembers
    /\ (length nd <= length serfMembers)%nat.
Proof.
  destruct (nodeDistancesOf_grouped ParseFloat lat long serfMembers)
    as (nd & Hnd & Hnodup & Hg & Hperm).
  exists nd. split; [exact Hnd|]. split; [exact Hnodup|].
  assert (Hgroups : forall g, g ∈ nd ->
            Nodes g <> [] /\ Nodes g = List.filter (hasKey (Key g)) serfMembers).
  { intros g Hin. rewrite Forall_forall in Hg.
    destruct (Hg g Hin) as [Hn (m & Hhead & _)]. split; [|exact Hn].
    intros E. rewrite E in Hhead. discriminate. }
  split; [exact Hgroups|]. split; [exact Hperm|].
  rewrite <- (Permutation_length Hperm). clear -Hgroups.
  induction nd as [|g nd IH]; simpl; [lia|].
  rewrite length_app.
  assert (Hg : Nodes g <> []) by (apply Hgroups; left).
  assert (IH' : (length nd <= length (concat (map Nodes nd)))%nat).
  { apply IH. intros g' Hin. apply Hgroups. right. exact Hin. }
  destruct (Nodes g); [contradiction|simpl; lia].
Qed.

(** ** The selected members *)

Lemma selectNodes_least k nd : forall acc,
  exists j, (j <= length nd)%nat
    /\ selectNodes k acc nd = acc ++ concat (map Nodes (take j nd))
    /\ (j = length nd \/ (k <= Z.of_nat (length (selectNodes k acc nd)))%Z)
    /\ (forall i, (i < j)%nat ->
          (Z.of_nat (length (acc ++ concat (map Nodes (take i nd)))) < k)%Z).
Proof.
  induction nd as [|node rest IH]; intros acc; simpl.
  - exists 0%nat. rewrite app_nil_r. repeat split; auto. intros i Hi. lia.
  - destruct (Z.ltb_spec (Z.of_nat (length acc)) k) as [Hlt|Hge].
    + destruct (IH (acc ++ Nodes node)) as (j & Hj & Heq & Hstop & Hleast).
      exists (S j). split; [lia|]. split; [|split].
      * rewrite Heq. simpl. rewrite <- app_assoc. reflexivity.
      * destruct Hstop as [->|Hk]; [left; reflexivity|right; exact Hk].
      * intros [|i] Hi; simpl.
        -- rewrite app_nil_r. exact Hlt.
        -- rewrite app_assoc. apply Hleast. lia.
    + exists 0%nat. split; [lia|]. simpl. rewrite app_nil_r. split; [reflexivity|].
      split; [right; exact Hge|]. intros i Hi. lia.
Qed.

(** The selection, with the number of groups it takes: the least one that
    reaches the wanted count, or all of them. *)
Lemma getClosestSerfNodes_least P ms k lat long :
  exists nd j r,
    nodeDistancesOf P ms lat long = Some nd
    /\ grouped P lat long ms (sort.Slice lessDistance nd)
    /\ getClosestSerfNodes P ms k lat long = Some r
    /\ r = concat (map Nodes (take j (sort.Slice lessDistance nd)))
    /\ (j <= length (sort.Slice lessDistance nd))%nat
    /\ (j = length (sort.Slice lessDistance nd) \/ (k <= Z.of_nat (length r))%Z)
    /\ (forall i, (i < j)%nat ->
          (Z.of_nat (length (concat (map Nodes (take i (sort.Slice lessDistance nd))))) < k)%Z).
Proof.
  destruct (nodeDistancesOf_grouped P lat long ms) as (nd & Hnd & Hgr).
  destruct (selectNodes_least k (sort.Slice lessDistance nd) [])
    as (j & Hj & Heq & Hstop & Hleast).
  exists nd, j, (selectNodes k [] (sort.Slice lessDistance nd)).
  split; [exact Hnd|].
  split; [exact (grouped_Permutation _ _ _ _ _ _ (Slice_perm lessDistance nd) Hgr)|].
  split; [unfold getClosestSerfNodes; rewrite Hnd; reflexivity|].
  repeat (split; [assumption|]). exact Hleast.
Qed.

Lemma getClosestSerfNodes_result P ms k lat long r :
  getClosestSerfNodes P ms k lat long = Some r ->
  exists nd j,
    grouped P lat long ms (sort.Slice lessDistance nd)
    /\ r = concat (map Nodes (take j (sort.Slice lessDistance nd)))
    /\ (j <= length (sort.Slice lessDistance nd))%nat
    /\ (j = length (sort.Slice lessDistance nd) \/ (k <= Z.of_nat (length r))%Z)
    /\ (forall i, (i < j)%nat ->
          (Z.of_nat (length (concat (map Nodes (take i (sort.Slice lessDistance nd))))) < k)%Z).
Proof.
  intros Hr.
  destruct (getClosestSerfNodes_least P ms k lat long)
    as (nd & j & r' & _ & Hgr & Hr' & Heq & Hj & Hstop & Hleast).
  rewrite Hr in Hr'. injection Hr' as <-.
  exists nd, j. auto.
Qed.

(** X3. The selection returns members of the candidate list only, none of
    them more often than the list holds it: the returned list, extended by
    the members left out, is a rearrangement of the candidates. *)
Theorem getClosestSerfNodes_returns_candidates
    (ParseFloat : string -> float64 * option strconv.NumError)
    (serfMembers : list Member) (selectNodeCount : Z) (lat long : float64)
    (r : list Member) :
  getClosestSerfNodes ParseFloat serfMembers selectNodeCount lat long = Some r ->
  exists others, r ++ others ≡ₚ serfMembers.
Proof.
  intros Hr.
  destruct (getClosestSerfNodes_result _ _ _ _ _ _ Hr)
    as (nd & j & (_ & _ & Hperm) & -> & _).
  exists (concat (map Nodes (drop j (sort.Slice lessDistance nd)))).
  rewrite <- concat_app, <- fmap_app, take_drop. exact Hperm.
Qed.

(** X4. A wanted count of zero or less selects nobody. *)
Theorem getClosestSerfNodes_nonpositive_count
    (ParseFloat : string -> float64 * option strconv.NumError)
    (serfMembers : list Member) (selectNodeCount : Z) (lat long : float64) :
  (selectNodeCount <= 0)%Z ->
  getClosestSerfNodes ParseFloat serfMembers selectNodeCount lat long = Some [].
Proof.
  intros Hk.
  destruct (getClosestSerfNodes_least ParseFloat serfMembers selectNodeCount lat long)
    as (nd & j & r & _ & _ & Hr & -> & _ & _ & Hleast).
  rewrite Hr. destruct j as [|j]; [reflexivity|].
  specialize (Hleast 0%nat ltac:(lia)). simpl in Hleast. lia.
Qed.

Lemma selectNodes_more k k' nd : forall acc,
  (k <= k')%Z ->
  exists more, selectNodes k' acc nd = selectNodes k acc nd ++ more.
Proof.
  induction nd as [|node rest IH]; intros acc Hk; simpl.
  - exists []. rewrite app_nil_r. reflexivity.
  - destruct (Z.ltb_spec (Z.of_nat (length acc)) k) as [Hlt|Hge].
    + assert (Hlt' : (Z.of_nat (length acc) <? k')%Z = true) by lia.
      rewrite Hlt'. apply IH. exact Hk.
    + destruct (Z.of_nat (length acc) <? k')%Z.
      * destruct (selectNodes_least k' rest (acc ++ Nodes node)) as (j & _ & Heq & _).
        rewrite Heq, <- app_assoc. eexists. reflexivity.
      * exists []. rewrite app_nil_r. reflexivity.
Qed.

(** X5. Asking for more members only extends the answer: the list returned
    for a count is the beginning of the list returned for any larger count. *)
Theorem getClosestSerfNodes_monotone
    (ParseFloat : string -> float64 * option strconv.NumError)
    (serfMembers : list Member) (k k' : Z) (lat long : float64)
    (r r' : list Member) :
  (k <= k')%Z ->
  getClosestSerfNodes ParseFloat serfMembers k lat long = Some r ->
  getClosestSerfNodes ParseFloat serfMembers k' lat long = Some r' ->
  exists more, r' = r ++ more.
Proof.
  intros Hk Hr Hr'. unfold getClosestSerfNodes in Hr, Hr'.
  destruct (nodeDistancesOf ParseFloat serfMembers lat long) as [nd|]; [|discriminate].
  simpl in Hr, Hr'. injection Hr as <-. injection Hr' as <-.
  apply selectNodes_more. exact Hk.
Qed.

(** X6. The overshoot is one group at most: the returned list is empty, or
    it ends with one whole group, and what precedes that group is shorter
    than the wanted count. *)
Theorem getClosestSerfNodes_stops_at_first_group_reaching_count
    (ParseFloat : string -> float64 * option strconv.NumError)
    (serfMembers : list Member) (selectNodeCount : Z) (lat long : float64)
    (r : list Member) :
  getClosestSerfNodes ParseFloat serfMembers selectNodeCount lat long = Some r ->
  r = []
  \/ exists before key,
       r = before ++ List.filter (hasKey key) serfMembers
       /\ List.filter (hasKey key) serfMembers <> []
       /\ (Z.of_nat (length before) < selectNodeCount)%Z.
Proof.
  intros Hr.
  destruct (getClosestSerfNodes_result _ _ _ _ _ _ Hr)
    as (nd & j & (_ & Hg & _) & -> & Hj & _ & Hleast).
  set (sorted := sort.Slice lessDistance nd) in *.
  destruct j as [|j]; [left; reflexivity|right].
  destruct (lookup_lt_is_Some_2 sorted j ltac:(lia)) as [g Hlook].
  exists (concat (map Nodes (take j sorted))), (Key g).
  rewrite Forall_forall in Hg.
  destruct (Hg g ltac:(apply list_elem_of_lookup; eauto)) as [Hn (m & Hhead & _)].
  split; [|split].
  - rewrite (take_S_r _ _ _ Hlook), fmap_app, concat_app. simpl.
    rewrite app_nil_r, Hn. reflexivity.
  - rewrite <- Hn. intros E. rewrite E in Hhead. discriminate.
  - apply Hleast. lia.
Qed.

Lemma filter_hasKey_NoDup key ms :
  NoDup (map memberKey ms) -> (length (List.filter (hasKey key) ms) <= 1)%nat.
Proof.
  induction ms as [|m ms IH]; simpl; [lia|]. intros Hnd.
  apply NoDup_cons in Hnd as [Hm Hnd]. specialize (IH Hnd).
  destruct (hasKey key m) eqn:E; [|exact IH]. simpl.
  apply hasKey_true in E.
  assert (Hnone : List.filter (hasKey key) ms = []).
  { clear IH. induction ms as [|x ms IHms]; simpl; [reflexivity|].
    apply NoDup_cons in Hnd as [_ Hnd].
    destruct (hasKey key x) eqn:Ex.
    - exfalso. apply Hm. apply hasKey_true in Ex. rewrite E, <- Ex. left.
    - apply IHms; [|exact Hnd]. intros Hin. apply Hm. right. exact Hin. }
  rewrite Hnone. simpl. lia.
Qed.

Lemma length_concat_singletons (l : list geolocateSerfNodes) :
  Forall (fun g => length (Nodes g) = 1%nat) l ->
  length (concat (map Nodes l)) = length l.
Proof.
  induction 1 as [|g l Hg _ IH]; simpl; [reflexivity|].
  rewrite length_app, Hg, IH. reflexivity.
Qed.

(** X7. When no two candidates share a location key, the selection
    returns exactly the wanted number of members, or all of them when there
    are fewer (and none for a negative count). *)
Theorem getClosestSerfNodes_exact_count
    (ParseFloat : string -> float64 * option strconv.NumError)
    (serfMembers : list Member) (selectNodeCount : Z) (lat long : float64)
    (r : list Member) :
  NoDup (map memberKey serfMembers) ->
  getClosestSerfNodes ParseFloat serfMembers selectNodeCount lat long = Some r ->
  length r = Nat.min (Z.to_nat selectNodeCount) (length serfMembers).
Proof.
  intros Hnodup Hr.
  destruct (getClosestSerfNodes_result _ _ _ _ _ _ Hr)
    as (nd & j & (_ & Hg & Hperm) & -> & Hj & Hstop & Hleast).
  set (sorted := sort.Slice lessDistance nd) in *.
  assert (Hone : Forall (fun g => length (Nodes g) = 1%nat) sorted).
  { eapply Forall_impl; [exact Hg|]. intros g [Hn (m & Hhead & _)]. simpl.
    pose proof (filter_hasKey_NoDup (Key g) serfMembers Hnodup) as Hle.
    rewrite <- Hn in Hle. destruct (Nodes g); [discriminate|simpl in *; lia]. }
  assert (Hlen : forall i, (i <= length sorted)%nat ->
                           length (concat (map Nodes (take i sorted))) = i).
  { intros i Hi. rewrite length_concat_singletons by (apply Forall_take; exact Hone).
    rewrite length_take. lia. }
  assert (Hall : length sorted = length serfMembers).
  { rewrite <- (length_concat_singletons sorted Hone). apply Permutation_length, Hperm. }
  rewrite (Hlen j Hj) in *.
  assert (Hjk : j = 0%nat \/ (Z.of_nat j <= selectNodeCount)%Z).
  { destruct j as [|j]; [left; reflexivity|right].
    specialize (Hleast j ltac:(lia)). rewrite Hlen in Hleast by lia. lia. }
  lia.
Qed.

(** Without NaN and with one pair of tags per key, the sorted groups are in
    order of distance and every member is at the distance of its group. *)
Lemma sorted_groups_in_order P lat long ms nd :
  (forall m, m ∈ ms -> memberDistance P lat long m <> FNaN) ->
  (forall m1 m2, m1 ∈ ms -> m2 ∈ ms ->
                 memberKey m1 = memberKey m2 ->
                 getMemberLocation m1 = getMemberLocation m2) ->
  grouped P lat long ms (sort.Slice lessDistance nd) ->
  StronglySorted (fun g h => lessDistance g h = true) (sort.Slice lessDistance nd)
  /\ Forall (fun g => Distance g <> FNaN
                      /\ Forall (fun n => memberDistance P lat long n = Distance g)
                                (Nodes g))
            (sort.Slice lessDistance nd).
Proof.
  intros Hnan Hloc (_ & Hg & _).
  assert (Hok : Forall (fun g => Distance g <> FNaN
                                 /\ Forall (fun n => memberDistance P lat long n = Distance g)
                                           (Nodes g))
                       (sort.Slice lessDistance nd)).
  { eapply Forall_impl; [exact Hg|]. intros g Hgg. simpl.
    destruct (groupOf_head _ _ _ _ _ Hgg) as (m & _ & Hin & Hk & _ & _ & _ & Hd).
    split; [rewrite Hd; apply Hnan, Hin|].
    rewrite (groupOf_nodes _ _ _ _ _ Hgg). apply Forall_forall. intros n Hn.
    apply list_elem_of_In, filter_In in Hn as [Hn Hkn].
    apply hasKey_true in Hkn. apply list_elem_of_In in Hn.
    rewrite Hd. apply memberDistance_location, Hloc; [assumption|assumption|congruence]. }
  split; [|exact Hok].
  apply (Slice_sorted lessDistance (fun g => Distance g <> FNaN)).
  - intros a b Ha Hb. apply fle_total; assumption.
  - intros a b c. apply fle_trans.
  - rewrite <- (Slice_perm lessDistance nd).
    eapply Forall_impl; [exact Hok|]. intros g [H _]. exact H.
Qed.

(** X8. When no candidate's distance is NaN and candidates with the same
    key have the same tags, a selection of at least one member from a
    non-empty candidate list begins with a candidate that no other candidate
    is nearer than. *)
Theorem getClosestSerfNodes_nearest_first
    (ParseFloat : string -> float64 * option strconv.NumError)
    (serfMembers : list Member) (selectNodeCount : Z) (lat long : float64)
    (r : list Member) :
  (forall m, m ∈ serfMembers -> memberDistance ParseFloat lat long m <> FNaN) ->
  (forall m1 m2, m1 ∈ serfMembers -> m2 ∈ serfMembers ->
                 memberKey m1 = memberKey m2 ->
                 getMemberLocation m1 = getMemberLocation m2) ->
  (1 <= selectNodeCount)%Z ->
  serfMembers <> [] ->
  getClosestSerfNodes ParseFloat serfMembers selectNodeCount lat long = Some r ->
  exists first rest,
    r = first :: rest
    /\ first ∈ serfMembers
    /\ forall m, m ∈ serfMembers ->
         fle (memberDistance ParseFloat lat long first)
             (memberDistance ParseFloat lat long m) = true.
Proof.
  intros Hnan Hloc Hk Hne Hr.
  destruct (getClosestSerfNodes_result _ _ _ _ _ _ Hr)
    as (nd & j & Hgr & -> & Hj & Hstop & _).
  destruct (sorted_groups_in_order _ _ _ _ _ Hnan Hloc Hgr) as [Hsorted Hok].
  destruct Hgr as (_ & Hg & Hperm).
  set (sorted := sort.Slice lessDistance nd) in *.
  destruct sorted as [|g0 tl] eqn:Es.
  { simpl in Hperm. apply Permutation_nil_l in Hperm. congruence. }
  destruct j as [|j].
  { simpl in Hstop. destruct Hstop as [Hz|Hz]; [discriminate|lia]. }
  apply Forall_cons in Hg as [Hg0 _].
  destruct (groupOf_head _ _ _ _ _ Hg0) as (m0 & Hhead & Hin0 & _ & _ & _ & _ & Hd0).
  simpl. destruct (Nodes g0) as [|n0 ns] eqn:En; [discriminate|].
  simpl in Hhead. injection Hhead as ->.
  exists m0, (ns ++ concat (map Nodes (take j tl))).
  split; [reflexivity|]. split; [exact Hin0|].
  intros m Hm. rewrite <- Hperm in Hm.
  apply list_elem_of_In, in_concat in Hm as (ns' & Hns & Hm).
  apply list_elem_of_In in Hns, Hm.
  apply list_elem_of_fmap in Hns as (g & -> & Hgin).
  rewrite Forall_forall in Hok. destruct (Hok g Hgin) as [Hgnan Hsame].
  rewrite Forall_forall in Hsame. rewrite (Hsame m Hm), <- Hd0.
  apply elem_of_cons in Hgin as [->|Hgin].
  - apply fle_refl. exact Hgnan.
  - apply StronglySorted_cons in Hsorted as [Hfirst _].
    rewrite Forall_forall in Hfirst. apply (Hfirst g Hgin).
Qed.

(** ** The selection at two candidates *)

Lemma east_here_numbers m :
  m ∈ [east; here] -> memberDistance strconv.ParseFloat (FNum 0) (FNum 0) m <> FNaN.
Proof.
  intros Hm. apply elem_of_cons in Hm as [->|Hm];
    [|apply list_elem_of_singleton in Hm as ->];
    unfold east, here; rewrite memberDistance_memberAt.
  - rewrite ParseFloat_0, ParseFloat_90. simpl fst.
    rewrite getDistance_quarter_turn. discriminate.
  - rewrite ParseFloat_0. simpl fst. rewrite getDistance_same. discriminate.
Qed.

Lemma east_here_keys m1 m2 :
  m1 ∈ [east; here] -> m2 ∈ [east; here] ->
  memberKey m1 = memberKey m2 -> getMemberLocation m1 = getMemberLocation m2.
Proof.
  intros H1 H2.
  apply elem_of_cons in H1 as [->|H1]; [|apply list_elem_of_singleton in H1 as ->];
    (apply elem_of_cons in H2 as [->|H2]; [|apply list_elem_of_singleton in H2 as ->]);
    try reflexivity;
    unfold memberKey, east, here; rewrite !getMemberLocation_memberAt; discriminate.
Qed.

Lemma east_here_distinct_keys : NoDup (map memberKey [east; here]).
Proof.
  unfold memberKey, east, here. cbn [map]. rewrite !getMemberLocation_memberAt.
  apply NoDup_cons. split.
  - intros H. apply list_elem_of_singleton in H. discriminate.
  - apply NoDup_singleton.
Qed.

Lemma east_here_selected k :
  exists r, getClosestSerfNodes strconv.ParseFloat [east; here] k (FNum 0) (FNum 0)
            = Some r.
Proof.
  destruct (getClosestSerfNodes_groups strconv.ParseFloat [east; here] k (FNum 0) (FNum 0))
    as (_ & _ & r & _ & _ & Hr & _).
  exists r. exact Hr.
Qed.

Lemma findInSlice_is_first_index_witness :
  exists (k : nat) v,
    findInSlice [ {| Key := "0-90"; Latitude := FNum 0; Longitude := FNum 90;
                     Distance := FNum 0; Nodes := [east] |};
                  {| Key := "0-0"; Latitude := FNum 0; Longitude := FNum 0;
                     Distance := FNum 0; Nodes := [here] |} ] "0-0" = Z.of_nat k
    /\ [ {| Key := "0-90"; Latitude := FNum 0; Longitude := FNum 90;
            Distance := FNum 0; Nodes := [east] |};
         {| Key := "0-0"; Latitude := FNum 0; Longitude := FNum 0;
            Distance := FNum 0; Nodes := [here] |} ] !! k = Some v
    /\ Key v = "0-0"
    /\ forall j v', (j < k)%nat ->
         [ {| Key := "0-90"; Latitude := FNum 0; Longitude := FNum 90;
              Distance := FNum 0; Nodes := [east] |};
           {| Key := "0-0"; Latitude := FNum 0; Longitude := FNum 0;
              Distance := FNum 0; Nodes := [here] |} ] !! j = Some v' ->
         Key v' <> "0-0".
Proof.
  apply (proj2 (findInSlice_is_first_index
                  [ {| Key := "0-90"; Latitude := FNum 0; Longitude := FNum 90;
                       Distance := FNum 0; Nodes := [east] |};
                    {| Key := "0-0"; Latitude := FNum 0; Longitude := FNum 0;
                       Distance := FNum 0; Nodes := [here] |} ] "0-0")).
  discriminate.
Defined.

Lemma getClosestSerfNodes_returns_candidates_witness :
  exists r others,
    getClosestSerfNodes strconv.ParseFloat [east; here] 1 (FNum 0) (FNum 0) = Some r
    /\ r ++ others ≡ₚ [east; here].
Proof.
  destruct (east_here_selected 1) as (r & Hr).
  destruct (getClosestSerfNodes_returns_candidates
              strconv.ParseFloat [east; here] 1 (FNum 0) (FNum 0) r Hr)
    as (others & H).
  exists r, others. split; [exact Hr|exact H].
Defined.

Lemma getClosestSerfNodes_nonpositive_count_witness :
  getClosestSerfNodes strconv.ParseFloat [east; here] (-1) (FNum 0) (FNum 0) = Some [].
Proof.
  apply (getClosestSerfNodes_nonpositive_count
           strconv.ParseFloat [east; here] (-1) (FNum 0) (FNum 0)).
  lia.
Defined.

Lemma getClosestSerfNodes_monotone_witness :
  exists r r' more,
    getClosestSerfNodes strconv.ParseFloat [east; here] 1 (FNum 0) (FNum 0) = Some r
    /\ getClosestSerfNodes strconv.ParseFloat [east; here] 2 (FNum 0) (FNum 0) = Some r'
    /\ r' = r ++ more.
Proof.
  destruct (east_here_selected 1) as (r & Hr).
  destruct (east_here_selected 2) as (r' & Hr').
  destruct (getClosestSerfNodes_monotone
              strconv.ParseFloat [east; here] 1 2 (FNum 0) (FNum 0) r r'
              ltac:(lia) Hr Hr')
    as (more & H).
  exists r, r', more. auto.
Defined.

Lemma getClosestSerfNodes_stops_at_first_group_reaching_count_witness :
  exists r,
    getClosestSerfNodes strconv.ParseFloat [east; here] 1 (FNum 0) (FNum 0) = Some r
    /\ (r = []
        \/ exists before key,
             r = before ++ List.filter (hasKey key) [east; here]
             /\ List.filter (hasKey key) [east; here] <> []
             /\ (Z.of_nat (length before) < 1)%Z).
Proof.
  destruct (east_here_selected 1) as (r & Hr).
  exists r. split; [exact Hr|].
  apply (getClosestSerfNodes_stops_at_first_group_reaching_count
           strconv.ParseFloat [east; here] 1 (FNum 0) (FNum 0) r Hr).
Defined.

Lemma getClosestSerfNodes_exact_count_witness :
  exists r,
    getClosestSerfNodes strconv.ParseFloat [east; here] 1 (FNum 0) (FNum 0) = Some r
    /\ length r = Nat.min (Z.to_nat 1) (length [east; here]).
Proof.
  destruct (east_here_selected 1) as (r & Hr).
  exists r. split; [exact Hr|].
  apply (getClosestSerfNodes_exact_count
           strconv.ParseFloat [east; here] 1 (FNum 0) (FNum 0) r
           east_here_distinct_keys Hr).
Defined.

Lemma getClosestSerfNodes_nearest_first_witness :
  exists r first rest,
    getClosestSerfNodes strconv.ParseFloat [east; here] 1 (FNum 0) (FNum 0) = Some r
    /\ r = first :: rest
    /\ first ∈ [east; here]
    /\ forall m, m ∈ [east; here] ->
         fle (memberDistance strconv.ParseFloat (FNum 0) (FNum 0) first)
             (memberDistance strconv.ParseFloat (FNum 0) (FNum 0) m) = true.
Proof.
  destruct (east_here_selected 1) as (r & Hr).
  destruct (getClosestSerfNodes_nearest_first
              strconv.ParseFloat [east; here] 1 (FNum 0) (FNum 0) r
              east_here_numbers east_here_keys ltac:(lia) ltac:(discriminate) Hr)
    as (first & rest & H1 & H2 & H3).
  exists r, first, rest. auto.
Defined.

(** ** More on the distance *)

Section DistanceFacts.
Local Open Scope R_scope.


Lemma radians_not_number x : ~ isNumber x -> radians x = x.
Proof.
  pose proof PI_RGT_0.
  intros Hx. unfold radians, math.Pi. destruct x; simpl.
  - exfalso. apply Hx. eexists. reflexivity.
  - unfold finf_mul. rewrite Rsign_pos by lra. simpl. rewrite Rsign_pos by lra. reflexivity.
  - unfold finf_mul. rewrite Rsign_pos by lra. simpl. rewrite Rsign_pos by lra. reflexivity.
  - reflexivity.
Qed.

Lemma radians_number x : isNumber x -> isNumber (radians x).
Proof. intros [r ->]. rewrite radians_num. eexists. reflexivity. Qed.

Lemma hav_a_not_number x1 y1 x2 y2 :
  ~ isNumber x1 \/ ~ isNumber y1 \/ ~ isNumber x2 \/ ~ isNumber y2 ->
  hav_a x1 y1 x2 y2 = FNaN.
Proof.
  unfold hav_a, isNumber.
  destruct x1, y1, x2, y2; simpl; intros [H|[H|[H|H]]]; try reflexivity;
    exfalso; apply H; eexists; reflexivity.
Qed.

Lemma hav_a_number_or_NaN x1 y1 x2 y2 :
  hav_a x1 y1 x2 y2 = FNaN \/ isNumber (hav_a x1 y1 x2 y2).
Proof.
  unfold hav_a, isNumber.
  destruct x1, y1, x2, y2; simpl; auto; right; eexists; reflexivity.
Qed.

Lemma atan2_first_quadrant y x : 0 <= y -> 0 <= x -> 0 <= math.atan2 y x <= PI / 2.
Proof.
  pose proof PI_RGT_0 as Hpi. intros Hy Hx. unfold math.atan2.
  destruct (Rle_lt_or_eq_dec 0 x Hx) as [Hxpos|<-].
  - rewrite Rsign_pos by exact Hxpos.
    assert (Hq : 0 <= y / x).
    { unfold Rdiv. apply Rmult_le_pos; [exact Hy|]. left. apply Rinv_0_lt_compat, Hxpos. }
    pose proof (atan_bound (y / x)) as [_ Hhi]. split; [|lra].
    destruct (Rle_lt_or_eq_dec 0 (y / x) Hq) as [Hqpos|<-].
    + pose proof (atan_increasing 0 (y / x) Hqpos) as Hinc. rewrite atan_0 in Hinc. lra.
    + rewrite atan_0. lra.
  - rewrite Rsign_zero.
    destruct (Rle_lt_or_eq_dec 0 y Hy) as [Hypos|<-].
    + rewrite Rsign_pos by exact Hypos. lra.
    + rewrite Rsign_zero. lra.
Qed.

Lemma hav_d_below_0 a : a < 0 -> hav_d (FNum a) = FNaN.
Proof.
  intros Ha. unfold hav_d, earthRadius. simpl.
  rewrite (Rsign_neg a) by lra. reflexivity.
Qed.

(** X9. Whatever its arguments, [getDistance] returns NaN or a number
    between 0 and half the circumference, 6371 times pi; it never returns an
    infinity or a negative distance. *)
Theorem getDistance_range (lat1 lon1 lat2 lon2 : float64) :
  getDistance lat1 lon1 lat2 lon2 = FNaN
  \/ exists d, getDistance lat1 lon1 lat2 lon2 = FNum d /\ 0 <= d <= 6371 * PI.
Proof.
  rewrite getDistance_unfold.
  destruct (hav_a_number_or_NaN (radians lat1) (radians lon1) (radians lat2) (radians lon2))
    as [->|[a ->]]; [left; reflexivity|].
  destruct (Rlt_le_dec a 0) as [Hneg|Hpos]; [left; apply hav_d_below_0, Hneg|].
  destruct (Rlt_le_dec 1 a) as [Hbig|Hsmall]; [left; apply hav_d_above_1, Hbig|].
  right. rewrite hav_d_num by lra. eexists. split; [reflexivity|].
  pose proof (atan2_first_quadrant (sqrt a) (sqrt (1 - a)) (sqrt_pos _) (sqrt_pos _)).
  lra.
Qed.

(** X10. An argument that is NaN or an infinity makes the distance NaN. *)
Theorem getDistance_NaN_of_special (lat1 lon1 lat2 lon2 : float64) :
  ~ isNumber lat1 \/ ~ isNumber lon1 \/ ~ isNumber lat2 \/ ~ isNumber lon2 ->
  getDistance lat1 lon1 lat2 lon2 = FNaN.
Proof.
  intros H. rewrite getDistance_unfold, hav_a_not_number; [reflexivity|].
  destruct H as [H|[H|[H|H]]];
    [left|right; left|right; right; left|right; right; right];
    rewrite (radians_not_number _ H); exact H.
Qed.

Lemma getDistance_NaN_of_special_witness :
  ~ isNumber FPosInf /\ getDistance (FNum 0) FPosInf (FNum 0) (FNum 0) = FNaN.
Proof.
  assert (H : ~ isNumber FPosInf) by (intros [r Hr]; discriminate Hr).
  split; [exact H|].
  apply (getDistance_NaN_of_special (FNum 0) FPosInf (FNum 0) (FNum 0)).
  right. left. exact H.
Defined.



End DistanceFacts.

(** ** Errors and the exit code *)

Lemma errors_Is_refl e : errors_Is e e = true.
Proof. destruct e; cbn [errors_Is]; destruct (decide _); congruence. Qed.

Lemma errors_Is_Errorf_w prefix e target :
  errors_Is e target = true -> errors_Is (Errorf_w prefix e) target = true.
Proof.
  intros H. unfold Errorf_w. cbn [errors_Is].
  destruct (decide _); [reflexivity|exact H].
Qed.

Lemma wrapsOf_errors_Is cause e : wrapsOf cause e -> errors_Is e cause = true.
Proof.
  induction 1 as [|prefix e _ IH]; [apply errors_Is_refl|].
  apply errors_Is_Errorf_w, IH.
Qed.

Lemma string_app_assoc (a b c : string) : a +:+ (b +:+ c) = (a +:+ b) +:+ c.
Proof.
  induction a as [|x a IH]; [reflexivity|].
  change (String x (a +:+ (b +:+ c)) = String x ((a +:+ b) +:+ c)).
  f_equal. exact IH.
Qed.

Lemma wrapsOf_Error cause e :
  wrapsOf cause e -> exists prefix, Error e = prefix +:+ Error cause.
Proof.
  induction 1 as [|prefix e _ [p IH]]; [exists EmptyString; reflexivity|].
  exists (prefix +:+ p). rewrite <- string_app_assoc, <- IH. reflexivity.
Qed.

Lemma Errorf_w_not_Canceled prefix e : Errorf_w prefix e <> context_Canceled.
Proof. discriminate. Qed.

(** X12. [exit] recognises the cancellation by comparing the error with
    [context.Canceled]. Any other error, one that wraps the cancellation
    included, is printed, the exit code is kept, and when the code is not 0
    the failure is logged. *)
Theorem exit_keeps_code_of_other_errors
    (exitCode : Z) (fn fa : string) (e : error) (w : Effects) :
  e <> context_Canceled ->
  snd (exit exitCode fn fa (Some e) w) = exitCode
  /\ stdout (fst (exit exitCode fn fa (Some e) w)) = stdout w ++ ["Error: " +:+ Error e]
  /\ (exitCode <> 0%Z ->
      glog_errors (fst (exit exitCode fn fa (Some e) w))
      = glog_errors w ++ ["Record test failed exitCode=" +:+ pretty exitCode
                          +:+ " err=" +:+ Error e])
  /\ (exitCode = 0%Z ->
      glog_errors (fst (exit exitCode fn fa (Some e) w)) = glog_errors w).
Proof.
  intros He. unfold exit.
  assert (Hcan : is_context_Canceled (Some e) = false) by (destruct e; simpl; congruence).
  rewrite Hcan. simpl negb. cbv iota.
  assert (Hclean : stdout (cleanup fn fa w) = stdout w
                   /\ glog_errors (cleanup fn fa w) = glog_errors w).
  { unfold cleanup. destruct (negb (String.eqb fn fa)); auto. }
  destruct Hclean as [Hout Hlog].
  destruct (Z.eqb_spec exitCode 0) as [->|Hne]; simpl; rewrite ?Hout, ?Hlog.
  - repeat split; auto. intros H. contradiction.
  - repeat split; auto. intros H. contradiction.
Qed.

Lemma exit_keeps_code_of_other_errors_witness :
  errors_Is (Errorf_w "error in test: " context_Canceled) context_Canceled = true
  /\ Errorf_w "error in test: " context_Canceled <> context_Canceled
  /\ snd (exit 1 "/tmp/file.mp4" "file.mp4"
            (Some (Errorf_w "error in test: " context_Canceled))
            {| removed := []; stdout := []; glog_errors := [] |}) = 1%Z.
Proof.
  split; [reflexivity|]. split; [discriminate|].
  apply (exit_keeps_code_of_other_errors 1 "/tmp/file.mp4" "file.mp4"
           (Errorf_w "error in test: " context_Canceled)).
  discriminate.
Defined.

(** ** The serf members *)

(** X13. With serf switched off, or without an address, [getSerfMembers]
    returns no members and no error whatever the RPC client would answer,
    and the selection made from its result is empty. Otherwise it returns
    the error of the connection or of the query as it is, or the members as
    the client lists them. *)
Theorem getSerfMembers_cases
    (RPCClient : Type) (NewRPCClient : string -> RPCClient + error)
    (Members : RPCClient -> list Member + error)
    (useSerf : bool) (serfRPCAddr : string) :
  (useSerf = false \/ serfRPCAddr = EmptyString ->
   getSerfMembers RPCClient NewRPCClient Members useSerf serfRPCAddr = inl []
   /\ forall ParseFloat selectNodeCount lat long,
        getClosestSerfNodes ParseFloat [] selectNodeCount lat long = Some [])
  /\ (useSerf = true -> serfRPCAddr <> EmptyString ->
      (forall e, NewRPCClient serfRPCAddr = inr e ->
                 getSerfMembers RPCClient NewRPCClient Members useSerf serfRPCAddr = inr e)
      /\ (forall c, NewRPCClient serfRPCAddr = inl c ->
                    getSerfMembers RPCClient NewRPCClient Members useSerf serfRPCAddr
                    = Members c)).
Proof.
  unfold getSerfMembers. split.
  - intros [->| ->]; simpl.
    + split; [reflexivity|]. intros. destruct selectNodeCount; reflexivity.
    + rewrite orb_true_r. split; [reflexivity|]. intros.
      destruct selectNodeCount; reflexivity.
  - intros -> Hne. apply String.eqb_neq in Hne. rewrite Hne. simpl. split.
    + intros e ->. reflexivity.
    + intros c ->. destruct (Members c); reflexivity.
Qed.

Lemma getSerfMembers_cases_witness :
  getSerfMembers unit (fun _ => inr (errorString "connection refused"))
                 (fun _ => inl [east]) false "127.0.0.1:7373"
  = inl [].
Proof.
  apply (proj1 (getSerfMembers_cases unit (fun _ => inr (errorString "connection refused"))
                  (fun _ => inl [east]) false "127.0.0.1:7373")).
  left. reflexivity.
Defined.

(** ** The playback check, step by step *)

Lemma hlsUrl_skips PlaybackInfoSourceTypeHLS before rest :
  (forall s, s ∈ before -> Type_ s <> PlaybackInfoSourceTypeHLS) ->
  hlsUrl PlaybackInfoSourceTypeHLS (before ++ rest)
  = hlsUrl PlaybackInfoSourceTypeHLS rest.
Proof.
  induction before as [|s before IH]; intros Hno; simpl; [reflexivity|].
  destruct (String.eqb_spec (Type_ s) PlaybackInfoSourceTypeHLS) as [E|E].
  - exfalso. apply (Hno s); [left|exact E].
  - apply IH. intros s' Hs'. apply Hno. right. exact Hs'.
Qed.

(** X14. [checkPlayback] stops at its first failure. When the asset cannot be
    read or has no positive duration, the result depends neither on the
    playback info nor on the manifest; when the playback info cannot be read
    or gives no HLS URL, the result does not depend on the manifest. *)
Theorem checkPlayback_stops_at_first_failure
    (GetAsset : string -> bool -> Asset + error)
    (GetPlaybackInfo GetPlaybackInfo' : string -> PlaybackInfo + error)
    (CheckStats CheckStats' : string -> Z -> Z -> Stats + error)
    (PlaybackInfoSourceTypeHLS : string) (fmt_f : float64 -> string)
    (Duration_of_float64 Duration_of_float64' : float64 -> Z)
    (assetID : string) :
  ((forall asset, GetAsset assetID false = inl asset ->
                  nonPositive (DurationSec (VideoSpec asset))) ->
   checkPlayback GetAsset GetPlaybackInfo CheckStats PlaybackInfoSourceTypeHLS
                 fmt_f Duration_of_float64 assetID
   = checkPlayback GetAsset GetPlaybackInfo' CheckStats' PlaybackInfoSourceTypeHLS
                   fmt_f Duration_of_float64' assetID)
  /\ ((forall asset pinfo,
          GetAsset assetID false = inl asset ->
          GetPlaybackInfo (PlaybackID asset) = inl pinfo ->
          hlsUrl PlaybackInfoSourceTypeHLS (Source (Meta pinfo)) = EmptyString) ->
      checkPlayback GetAsset GetPlaybackInfo CheckStats PlaybackInfoSourceTypeHLS
                    fmt_f Duration_of_float64 assetID
      = checkPlayback GetAsset GetPlaybackInfo CheckStats' PlaybackInfoSourceTypeHLS
                      fmt_f Duration_of_float64' assetID).
Proof.
  unfold checkPlayback. split.
  - intros Hbad. destruct (GetAsset assetID false) as [asset|e]; [|reflexivity].
    specialize (Hbad asset eq_refl). apply fle_0_nonPositive in Hbad.
    rewrite Hbad. reflexivity.
  - intros Hno. destruct (GetAsset assetID false) as [asset|e]; [|reflexivity].
    destruct (fle _ _); [reflexivity|].
    destruct (GetPlaybackInfo (PlaybackID asset)) as [pinfo|e] eqn:Hp; [|reflexivity].
    rewrite (Hno asset pinfo eq_refl Hp). reflexivity.
Qed.

Lemma checkPlayback_stops_at_first_failure_witness :
  checkPlayback (fun _ _ => inl zeroDurationAsset)
                (fun _ => inr (errorString "no playback info"))
                (fun _ _ _ => inr (errorString "no manifest"))
                "html5/application/vnd.apple.mpegurl"
                (fun _ => "0.000000") (fun _ => 0%Z) "asset"
  = checkPlayback (fun _ _ => inl zeroDurationAsset)
                  (fun _ => inl {| Meta := {| Source := [] |} |})
                  (fun _ _ _ => inl {| SegmentsNum := ∅ |})
                  "html5/application/vnd.apple.mpegurl"
                  (fun _ => "0.000000") (fun _ => 1%Z) "asset".
Proof.
  apply (proj1 (checkPlayback_stops_at_first_failure
                  (fun _ _ => inl zeroDurationAsset)
                  (fun _ => inr (errorString "no playback info"))
                  (fun _ => inl {| Meta := {| Source := [] |} |})
                  (fun _ _ _ => inr (errorString "no manifest"))
                  (fun _ _ _ => inl {| SegmentsNum := ∅ |})
                  "html5/application/vnd.apple.mpegurl"
                  (fun _ => "0.000000") (fun _ => 0%Z) (fun _ => 1%Z) "asset")).
  intros asset H. injection H as <-. right. exists 0%R. split; [reflexivity|lra].
Defined.

(** X15. Only the first HLS source of the playback info counts: the URL
    checked is that source's URL, whatever sources follow it. When that URL
    is empty, an asset with a positive duration fails with the no-HLS-source
    error, even if a later HLS source has a URL. *)
Theorem checkPlayback_first_HLS_source_decides
    (PlaybackInfoSourceTypeHLS : string)
    (before after : list PlaybackInfoSource) (src : PlaybackInfoSource) :
  (forall s, s ∈ before -> Type_ s <> PlaybackInfoSourceTypeHLS) ->
  Type_ src = PlaybackInfoSourceTypeHLS ->
  hlsUrl PlaybackInfoSourceTypeHLS (before ++ src :: after) = Url src
  /\ forall GetAsset GetPlaybackInfo CheckStats fmt_f Duration_of_float64
            assetID asset pinfo,
       GetAsset assetID false = inl asset ->
       ~ nonPositive (DurationSec (VideoSpec asset)) ->
       GetPlaybackInfo (PlaybackID asset) = inl pinfo ->
       Source (Meta pinfo) = before ++ src :: after ->
       Url src = EmptyString ->
       checkPlayback GetAsset GetPlaybackInfo CheckStats PlaybackInfoSourceTypeHLS
                     fmt_f Duration_of_float64 assetID
       = Some (errorString "no HLS source found in playback info").
Proof.
  intros Hno Ht.
  assert (Hurl : hlsUrl PlaybackInfoSourceTypeHLS (before ++ src :: after) = Url src).
  { rewrite hlsUrl_skips by exact Hno. simpl.
    rewrite (proj2 (String.eqb_eq _ _) Ht). reflexivity. }
  split; [exact Hurl|].
  intros GetAsset GetPlaybackInfo CheckStats fmt_f D assetID asset pinfo Ha Hd Hp Hs Hu.
  unfold checkPlayback. rewrite Ha.
  destruct (fle (DurationSec (VideoSpec asset)) (FNum 0)) eqn:Hf.
  { exfalso. apply Hd, fle_0_nonPositive, Hf. }
  rewrite Hp, Hs, Hurl, Hu. reflexivity.
Qed.

Lemma checkPlayback_first_HLS_source_decides_witness :
  hlsUrl "hls" ([{| Type_ := "mp4"; Url := "https://cdn/a.mp4" |}]
                ++ {| Type_ := "hls"; Url := "" |}
                :: [{| Type_ := "hls"; Url := "https://cdn/a.m3u8" |}])
  = "".
Proof.
  apply (proj1 (checkPlayback_first_HLS_source_decides "hls"
                  [{| Type_ := "mp4"; Url := "https://cdn/a.mp4" |}]
                  [{| Type_ := "hls"; Url := "https://cdn/a.m3u8" |}]
                  {| Type_ := "hls"; Url := "" |}
                  ltac:(intros s Hs; apply list_elem_of_singleton in Hs;
                        subst s; discriminate)
                  eq_refl)).
Defined.

(** ** Patching the host, again *)

Lemma prefix_refl (s : string) : String.prefix s s = true.
Proof.
  induction s as [|c s IH]; simpl; [reflexivity|].
  destruct (ascii_dec c c); [exact IH|congruence].
Qed.

Lemma Contains_refl (s : string) : strings.Contains s s = true.
Proof. destruct s; cbn [strings.Contains]; rewrite prefix_refl; reflexivity. Qed.

Lemma Contains_empty (s : string) : strings.Contains s EmptyString = true.
Proof. destruct s; reflexivity. Qed.

(** X16. A source URL without a host, such as a server name given without
    its scheme, never patches the target: every host contains the empty
    host, so the parsed target is written back with its own scheme and
    host. *)
Theorem patchURLHost_source_without_host
    (url_Parse : string -> url.URL + error) (url_String : url.URL -> string)
    (target src : string) (targetURL srcURL : url.URL) :
  url_Parse target = inl targetURL ->
  url_Parse src = inl srcURL ->
  url.Host srcURL = EmptyString ->
  patchURLHost url_Parse url_String target src = url_String targetURL.
Proof.
  intros Ht Hs Hh. unfold patchURLHost. rewrite Ht, Hs, Hh, Contains_empty.
  reflexivity.
Qed.

Lemma patchURLHost_source_without_host_witness :
  patchURLHost url.Parse url.String
    "https://origin.livepeer.com/files" "livepeer.monster"
  = "https://origin.livepeer.com/files".
Proof.
  rewrite (patchURLHost_source_without_host url.Parse url.String
             "https://origin.livepeer.com/files" "livepeer.monster"
             _ _ eq_refl eq_refl eq_refl).
  reflexivity.
Defined.

(** X17. Patching is idempotent: when the URL that [patchURLHost] writes
    reads back as the URL it was written from, that URL's host contains the
    source's host, and patching the result again with the same source
    returns the same string. *)
Theorem patchURLHost_idempotent
    (url_Parse : string -> url.URL + error) (url_String : url.URL -> string)
    (target src : string) :
  (forall targetURL srcURL,
      url_Parse target = inl targetURL -> url_Parse src = inl srcURL ->
      let patched :=
        if strings.Contains (url.Host targetURL) (url.Host srcURL) then targetURL
        else withSchemeHost targetURL (url.Scheme srcURL) (url.Host srcURL) in
      url_Parse (url_String patched) = inl patched) ->
  patchURLHost url_Parse url_String
    (patchURLHost url_Parse url_String target src) src
  = patchURLHost url_Parse url_String target src
  /\ (forall targetURL srcURL patched,
         url_Parse target = inl targetURL -> url_Parse src = inl srcURL ->
         url_Parse (patchURLHost url_Parse url_String target src) = inl patched ->
         strings.Contains (url.Host patched) (url.Host srcURL) = true).
Proof.
  intros Hback.
  assert (Hhost : forall targetURL srcURL,
             strings.Contains
               (url.Host (if strings.Contains (url.Host targetURL) (url.Host srcURL)
                          then targetURL
                          else withSchemeHost targetURL (url.Scheme srcURL)
                                              (url.Host srcURL)))
               (url.Host srcURL) = true).
  { intros t s. destruct (strings.Contains (url.Host t) (url.Host s)) eqn:Hc;
      [exact Hc|apply Contains_refl]. }
  assert (Hres : forall targetURL srcURL,
             url_Parse target = inl targetURL -> url_Parse src = inl srcURL ->
             patchURLHost url_Parse url_String target src
             = url_String (if strings.Contains (url.Host targetURL) (url.Host srcURL)
                           then targetURL
                           else withSchemeHost targetURL (url.Scheme srcURL)
                                               (url.Host srcURL))).
  { intros t s Ht Hs. unfold patchURLHost. rewrite Ht, Hs.
    destruct (strings.Contains (url.Host t) (url.Host s)); reflexivity. }
  split.
  - destruct (url_Parse target) as [t|e] eqn:Ht.
    + destruct (url_Parse src) as [s|e] eqn:Hs.
      * rewrite (Hres t s eq_refl eq_refl).
        specialize (Hback t s eq_refl eq_refl). cbv zeta in Hback.
        unfold patchURLHost at 1. rewrite Hback, Hs, Hhost. reflexivity.
      * assert (E : patchURLHost url_Parse url_String target src = target).
        { unfold patchURLHost. rewrite Ht, Hs. reflexivity. }
        rewrite E. exact E.
    + assert (E : patchURLHost url_Parse url_String target src = target).
      { unfold patchURLHost. rewrite Ht. reflexivity. }
      rewrite E. exact E.
  - intros t s patched Ht Hs Hp.
    rewrite (Hres t s Ht Hs), (Hback t s Ht Hs) in Hp.
    injection Hp as <-. apply Hhost.
Qed.

Lemma patchURLHost_idempotent_witness :
  patchURLHost url.Parse url.String
    (patchURLHost url.Parse url.String
       "https://origin.livepeer.com/files" "http://livepeer.monster")
    "http://livepeer.monster"
  = patchURLHost url.Parse url.String
      "https://origin.livepeer.com/files" "http://livepeer.monster".
Proof.
  apply (proj1 (patchURLHost_idempotent url.Parse url.String
                  "https://origin.livepeer.com/files" "http://livepeer.monster"
                  ltac:(intros t s Ht Hs; vm_compute in Ht, Hs;
                        injection Ht as <-; injection Hs as <-;
                        vm_compute; reflexivity))).
Defined.

(** ** The three uploads *)

Section TesterFacts.
Variable sys : System.
Variable vt : vodTester.


(** An error with a cause that a call returned, or that [checkPlayback]
    made. *)
Local Abbreviation rooted e :=
  (exists cause, wrapsOf cause e
                 /\ (callFailed sys vt cause \/ playbackVerdict sys cause)).

Lemma rooted_call e : callFailed sys vt e -> rooted e.
Proof. intros H. exists e. split; [constructor|left; exact H]. Qed.

Lemma rooted_wrap prefix e : rooted e -> rooted (Errorf_w prefix e).
Proof. intros (c & Hw & Hc). exists c. split; [constructor; exact Hw|exact Hc]. Qed.

Lemma vt_checkPlayback_rooted assetID e :
  vt_checkPlayback sys vt assetID = Some e -> rooted e.
Proof.
  unfold vt_checkPlayback, checkPlayback.
  destruct (api.GetAsset (Lapi vt) assetID false) as [asset|e0] eqn:Ha.
  2:{ intros H. injection H as <-. apply rooted_wrap, rooted_call.
      unfold callFailed. do 7 right. left. eauto. }
  destruct (fle (DurationSec (VideoSpec asset)) (FNum 0)).
  { intros H. injection H as <-. eexists. split; [constructor|].
    right. left. eexists. reflexivity. }
  destruct (api.GetPlaybackInfo (Lapi vt) (PlaybackID asset)) as [pinfo|e0] eqn:Hp.
  2:{ intros H. injection H as <-. apply rooted_wrap, rooted_call.
      unfold callFailed. do 8 right. left. eauto. }
  destruct (String.eqb _ EmptyString).
  { intros H. injection H as <-. eexists. split; [constructor|].
    right. right. left. reflexivity. }
  destruct (m3u8_CheckStats sys _ _ _) as [stats|e0] eqn:Hs.
  2:{ intros H. injection H as <-. apply rooted_call.
      unfold callFailed. do 9 right. eauto. }
  destruct (Z.leb _ 1); [|discriminate].
  intros H. injection H as <-. eexists. split; [constructor|].
  right. right. right. reflexivity.
Qed.

Lemma uploadViaUrlTester_rooted url poll name e :
  uploadViaUrlTester sys vt url poll name = inr e ->
  exists prefix inner, e = Errorf_w prefix inner /\ rooted inner.
Proof.
  unfold uploadViaUrlTester.
  destruct (api.UploadViaURL _ _ _ _) as [[asset task]|e0] eqn:Hu.
  2:{ intros H. injection H as <-. do 2 eexists. split; [reflexivity|].
      apply rooted_call. left. eauto. }
  destruct (WaitTaskProcessing vt poll task) as [e0|] eqn:Hw.
  { intros H. injection H as <-. do 2 eexists. split; [reflexivity|].
    apply rooted_call. unfold callFailed. do 5 right. left. eauto. }
  destruct (vt_checkPlayback sys vt (ID asset)) as [e0|] eqn:Hc; [|discriminate].
  intros H. injection H as <-. do 2 eexists. split; [reflexivity|].
  eapply vt_checkPlayback_rooted, Hc.
Qed.

Lemma directUploadTester_rooted now fileName poll e :
  fst (directUploadTester sys vt now fileName poll) = Some e ->
  exists prefix inner, e = Errorf_w prefix inner /\ rooted inner.
Proof.
  unfold directUploadTester.
  destruct (api.RequestUpload _ _ _) as [ru|e0] eqn:Hr; cbn [fst].
  2:{ intros H. injection H as <-. do 2 eexists. split; [reflexivity|].
      apply rooted_call. right. left. eauto. }
  destruct (os_Open sys fileName) as [file|e0] eqn:Ho; cbn [fst].
  2:{ intros H. injection H as <-. do 2 eexists. split; [reflexivity|].
      apply rooted_call. unfold callFailed. do 6 right. left. eauto. }
  destruct (api.UploadAsset _ _ _) as [e0|] eqn:Hu.
  { intros H. injection H as <-. do 2 eexists. split; [reflexivity|].
    apply rooted_call. unfold callFailed. do 2 right. left. eauto. }
  destruct (WaitTaskProcessing vt poll _) as [e0|] eqn:Hw.
  { intros H. injection H as <-. do 2 eexists. split; [reflexivity|].
    apply rooted_call. unfold callFailed. do 5 right. left. eauto. }
  destruct (vt_checkPlayback sys vt _) as [e0|] eqn:Hc; [|discriminate].
  intros H. injection H as <-. do 2 eexists. split; [reflexivity|].
  eapply vt_checkPlayback_rooted, Hc.
Qed.

Lemma resumableUploadTester_rooted now fileName poll e :
  fst (resumableUploadTester sys vt now fileName poll) = Some e ->
  exists prefix inner, e = Errorf_w prefix inner /\ rooted inner.
Proof.
  unfold resumableUploadTester.
  destruct (api.RequestUpload _ _ _) as [ru|e0] eqn:Hr; cbn [fst].
  2:{ intros H. injection H as <-. do 2 eexists. split; [reflexivity|].
      apply rooted_call. right. left. eauto. }
  destruct (os_Open sys fileName) as [file|e0] eqn:Ho; cbn [fst].
  2:{ intros H. injection H as <-. do 2 eexists. split; [reflexivity|].
      apply rooted_call. unfold callFailed. do 6 right. left. eauto. }
  destruct (api.ResumableUpload _ _ _) as [e0|] eqn:Hu.
  { intros H. injection H as <-. do 2 eexists. split; [reflexivity|].
    apply rooted_call. unfold callFailed. do 3 right. left. eauto. }
  destruct (WaitTaskProcessing vt poll _) as [e0|] eqn:Hw.
  { intros H. injection H as <-. do 2 eexists. split; [reflexivity|].
    apply rooted_call. unfold callFailed. do 5 right. left. eauto. }
  destruct (vt_checkPlayback sys vt _) as [e0|] eqn:Hc; [|discriminate].
  intros H. injection H as <-. do 2 eexists. split; [reflexivity|].
  eapply vt_checkPlayback_rooted, Hc.
Qed.

(** X18. The error of a phase keeps its cause. Whatever one of the three
    functions of [Start] returns as an error is the error of the call that
    failed, or one of the three errors that [checkPlayback] makes, wrapped
    at least once with [%w]: it is never the cause itself, [errors.Is] finds
    the cause, and the message ends with the cause's message. *)
Theorem phase_errors_keep_their_cause
    (now fileName vodImportUrl : string) (taskPollDuration : Z) (e : error) :
  urlImport sys vt now vodImportUrl taskPollDuration = Some e
  \/ directUpload sys vt now fileName taskPollDuration = Some e
  \/ resumableUpload sys vt now fileName taskPollDuration = Some e ->
  exists prefix inner cause,
    e = Errorf_w prefix inner
    /\ wrapsOf cause inner
    /\ (callFailed sys vt cause \/ playbackVerdict sys cause)
    /\ errors_Is e cause = true
    /\ exists text, Error e = text +:+ Error cause.
Proof.
  assert (Hfin : forall prefix inner, rooted inner ->
            exists prefix' inner' cause,
              Errorf_w prefix inner = Errorf_w prefix' inner'
              /\ wrapsOf cause inner'
              /\ (callFailed sys vt cause \/ playbackVerdict sys cause)
              /\ errors_Is (Errorf_w prefix inner) cause = true
              /\ exists text, Error (Errorf_w prefix inner) = text +:+ Error cause).
  { intros prefix inner (c & Hw & Hc). exists prefix, inner, c.
    assert (Hall : wrapsOf c (Errorf_w prefix inner)) by (constructor; exact Hw).
    repeat split; auto.
    - apply wrapsOf_errors_Is, Hall.
    - apply wrapsOf_Error, Hall. }
  intros [H|[H|H]].
  - unfold urlImport, urlImportPhase in H.
    destruct (uploadViaUrlTester _ _ _ _ _) as [asset|e0] eqn:Hu.
    + destruct (api.ExportAsset (Lapi vt) (ID asset)) as [task|e0] eqn:He.
      * destruct (WaitTaskProcessing vt taskPollDuration task) as [e0|] eqn:Hw;
          [|discriminate].
        injection H as <-. apply Hfin, rooted_call.
        unfold callFailed. do 5 right. left. eauto.
      * injection H as <-. apply Hfin, rooted_call.
        unfold callFailed. do 4 right. left. eauto.
    + injection H as <-. apply Hfin.
      destruct (uploadViaUrlTester_rooted _ _ _ _ Hu) as (p & i & -> & Hr).
      apply rooted_wrap, Hr.
  - unfold directUpload, directUploadPhase in H.
    destruct (fst (directUploadTester _ _ _ _ _)) as [e0|] eqn:Hd; [|discriminate].
    injection H as <-. apply Hfin.
    destruct (directUploadTester_rooted _ _ _ _ Hd) as (p & i & -> & Hr).
    apply rooted_wrap, Hr.
  - unfold resumableUpload, resumableUploadPhase in H.
    destruct (fst (resumableUploadTester _ _ _ _ _)) as [e0|] eqn:Hd; [|discriminate].
    injection H as <-. apply Hfin.
    destruct (resumableUploadTester_rooted _ _ _ _ Hd) as (p & i & -> & Hr).
    apply rooted_wrap, Hr.
Qed.



End TesterFacts.





Lemma phase_errors_keep_their_cause_witness :
  exists prefix inner cause,
    Errorf_w "error importing asset from url=https://example.com/video.mp4: "
      (Errorf_w "error importing asset: " context_Canceled)
    = Errorf_w prefix inner
    /\ wrapsOf cause inner
    /\ (callFailed sampleSystem cancelledTester cause
        \/ playbackVerdict sampleSystem cause)
    /\ errors_Is
         (Errorf_w "error importing asset from url=https://example.com/video.mp4: "
            (Errorf_w "error importing asset: " context_Canceled)) cause = true
    /\ exists text,
         Error (Errorf_w "error importing asset from url=https://example.com/video.mp4: "
                  (Errorf_w "error importing asset: " context_Canceled))
         = text +:+ Error cause.
Proof.
  apply (phase_errors_keep_their_cause sampleSystem cancelledTester
           "2022-08-10T12:00:00Z" "video.mp4" "https://example.com/video.mp4" 1).
  left. reflexivity.
Defined.


(** ** The test session, further *)

Section SessionFacts.
Variable vodImportUrl : string.

Lemma phaseReturns_wrapped p e :
  phaseReturns vodImportUrl p (Some e) -> exists prefix inner, e = Errorf_w prefix inner.
Proof.
  intros H. remember (Some e) as r0 eqn:Hr. destruct H as [up ex wt|r|r].
  - unfold urlImportPhase in Hr. destruct up as [asset|e0].
    + destruct (ex (ID asset)) as [task|e0].
      * destruct (wt task) as [e0|]; [|discriminate].
        injection Hr as <-. eauto.
      * injection Hr as <-. eauto.
    + injection Hr as <-. eauto.
  - destruct r as [e0|]; [|discriminate]. injection Hr as <-. eauto.
  - destruct r as [e0|]; [|discriminate]. injection Hr as <-. eauto.
Qed.

Lemma reachable_phases s :
  reachable vodImportUrl s ->
  forall p r, phases s p = Some r -> phaseReturns vodImportUrl p r.
Proof.
  induction 1 as [gctx_done|s s' _ IH Hstep]; [discriminate|].
  destruct Hstep as [s p r Hp Hr|s Hdone Hrel|s|s Hall Hnone]; try exact IH.
  intros q r'. simpl. destruct (decide (q = p)) as [->|Hne].
  - intros H. injection H as <-. exact Hr.
  - apply IH.
Qed.

Lemma reachable_relayed s :
  reachable vodImportUrl s -> relayed s = true -> Ctx_done s = true.
Proof.
  induction 1 as [gctx_done|s s' _ IH Hstep]; [discriminate|].
  destruct Hstep as [s p r Hp Hr|s Hdone Hrel|s|s Hall Hnone]; simpl; auto.
Qed.

Lemma reachable_steps s s' :
  reachable vodImportUrl s -> steps vodImportUrl s s' -> reachable vodImportUrl s'.
Proof.
  intros Hs Hsteps. induction Hsteps as [s|s s1 s2 Hstep _ IH]; [exact Hs|].
  apply IH. eapply reachable_step; [exact Hs|exact Hstep].
Qed.

Lemma step_keeps_error s s' e :
  step vodImportUrl s s' ->
  errgroup.err (eg s) = Some e -> errgroup.err (eg s') = Some e.
Proof.
  intros Hstep He.
  destruct Hstep as [s p r Hp Hr|s Hdone Hrel|s|s Hall Hnone]; simpl; auto.
  unfold errgroup.returned. rewrite He. destruct r; exact He.
Qed.

Lemma steps_keep_error s s' e :
  steps vodImportUrl s s' ->
  errgroup.err (eg s) = Some e -> errgroup.err (eg s') = Some e.
Proof.
  induction 1 as [s|s s1 s2 Hstep _ IH]; [auto|].
  intros He. apply IH. eapply step_keeps_error; [exact Hstep|exact He].
Qed.

(** X21. [Start] returns only when the three phases have returned. It
    returns [nil] exactly when all three returned [nil]; otherwise it
    returns the error of one of the phases that failed, which is a wrapped
    error and never [context.Canceled] itself. *)
Theorem Start_returns_a_phase_error (s : session) (r : option error) :
  reachable vodImportUrl s ->
  result s = Some r ->
  allReturned s
  /\ (r = None <-> forall p, phases s p = Some None)
  /\ (forall e, r = Some e ->
        (exists p, phases s p = Some (Some e))
        /\ (exists prefix inner, e = Errorf_w prefix inner)
        /\ is_context_Canceled r = false).
Proof.
  intros Hreach Hr.
  destruct (reachable_inv vodImportUrl s Hreach) as [Hno Herr Hcan Hder Hres].
  destruct (Hres r Hr) as (-> & Hall & _).
  split; [exact Hall|]. split; [split|].
  - intros E p. destruct (phases s p) as [r'|] eqn:Hp; [|destruct (Hall p Hp)].
    rewrite (Hno E p r' Hp). reflexivity.
  - intros Hnil. destruct (errgroup.err (eg s)) as [e|] eqn:E; [|reflexivity].
    destruct (Herr e eq_refl) as (p & Hp). rewrite Hnil in Hp. discriminate.
  - intros e E. destruct (Herr e E) as (p & Hp).
    destruct (phaseReturns_wrapped p e (reachable_phases s Hreach p _ Hp))
      as (prefix & inner & ->).
    split; [exists p; exact Hp|]. split; [eauto|]. rewrite E. reflexivity.
Qed.

(** X22. The first error wins. Once a phase has returned an error while no
    phase had failed before, whatever the other phases return afterwards
    and whoever cancels the session, [Start] returns that error. *)
Theorem Start_returns_the_first_error
    (s s' : session) (p : phase) (e : error) (r : option error) :
  reachable vodImportUrl s ->
  (forall q r', phases s q = Some r' -> r' = None) ->
  phases s p = None ->
  phaseReturns vodImportUrl p (Some e) ->
  steps vodImportUrl (phaseReturned p (Some e) s) s' ->
  result s' = Some r ->
  r = Some e.
Proof.
  intros Hreach Hnil Hp He Hsteps Hr.
  assert (Hnone : errgroup.err (eg s) = None).
  { destruct (errgroup.err (eg s)) as [e'|] eqn:E; [|reflexivity].
    destruct (reachable_inv vodImportUrl s Hreach) as [_ Herr _ _ _].
    destruct (Herr e' E) as (q & Hq). specialize (Hnil q _ Hq). discriminate. }
  assert (H1 : reachable vodImportUrl (phaseReturned p (Some e) s)).
  { eapply reachable_step; [exact Hreach|]. apply step_phase; assumption. }
  assert (E1 : errgroup.err (eg (phaseReturned p (Some e) s)) = Some e).
  { simpl. unfold errgroup.returned. rewrite Hnone. reflexivity. }
  pose proof (steps_keep_error _ _ _ Hsteps E1) as E2.
  destruct (reachable_inv vodImportUrl s' (reachable_steps _ _ H1 Hsteps))
    as [_ _ _ _ Hres].
  destruct (Hres r Hr) as (-> & _). exact E2.
Qed.

(** X23. What [Start] returned is final. After it has returned, no phase
    returns any more and the group is not waited for again: whatever still
    happens, the result, what the phases returned and the group's error stay
    as they are, and the session stays done. *)
Theorem Start_result_is_final (s s' : session) (r : option error) :
  reachable vodImportUrl s ->
  result s = Some r ->
  steps vodImportUrl s s' ->
  result s' = Some r
  /\ (forall p, phases s' p = phases s p)
  /\ errgroup.err (eg s') = errgroup.err (eg s)
  /\ Done s' = true.
Proof.
  intros Hreach Hr Hsteps.
  induction Hsteps as [s|s s1 s2 Hstep _ IH].
  - destruct (reachable_inv vodImportUrl s Hreach) as [_ _ _ _ Hres].
    destruct (Hres r Hr) as (_ & _ & Hd). auto.
  - destruct (reachable_inv vodImportUrl s Hreach) as [_ _ _ _ Hres].
    destruct (Hres r Hr) as (_ & Hall & _).
    assert (Hsame : result s1 = Some r
                    /\ (forall p, phases s1 p = phases s p)
                    /\ errgroup.err (eg s1) = errgroup.err (eg s)).
    { destruct Hstep as [s p r' Hp _|s Hdone Hrel|s|s _ Hnone]; simpl; auto.
      - destruct (Hall p Hp).
      - congruence. }
    destruct Hsame as (Hr1 & Hph & Herr).
    destruct (IH (reachable_step _ _ _ Hreach Hstep) Hr1) as (H1 & H2 & H3 & H4).
    split; [exact H1|]. split; [|split; [congruence|exact H4]].
    intros p. rewrite H2. apply Hph.
Qed.

(** X24. The goroutine that waits for the group's context is always
    released. Once a phase has failed, the session was cancelled or [Start]
    has returned, that goroutine has made its call of [Cancel], after which
    the session is done, or it can make it as its next step. *)
Theorem Start_releases_the_waiting_goroutine (s : session) :
  reachable vodImportUrl s ->
  (exists p e, phases s p = Some (Some e)) \/ result s <> None \/ Done s = true ->
  (relayed s = true /\ Done s = true)
  \/ (relayed s = false /\ step vodImportUrl s (relay s) /\ Done (relay s) = true).
Proof.
  intros Hreach Hwhy.
  destruct (reachable_inv vodImportUrl s Hreach) as [Hno Herr Hcan Hder Hres].
  assert (Hdone : errgroup.ctx_done (eg s) = true).
  { destruct Hwhy as [(p & e & Hp)|[Hr|Hd]].
    - apply Hcan. intros E. specialize (Hno E p _ Hp). discriminate.
    - destruct (result s) as [r|] eqn:E; [|congruence].
      destruct (Hres r eq_refl) as (_ & _ & Hd). apply Hder, Hd.
    - apply Hder, Hd. }
  destruct (relayed s) eqn:Hrel.
  - left. split; [reflexivity|]. apply (reachable_relayed s Hreach Hrel).
  - right. split; [reflexivity|]. split; [|reflexivity].
    apply step_relay; assumption.
Qed.

End SessionFacts.

Lemma failedRun_steps (vodImportUrl : string) :
  steps vodImportUrl
    (phaseReturned DirectUpload (directUploadPhase (Some boom)) (started false))
    failedRun.
Proof.
  unfold failedRun.
  set (s1 := phaseReturned DirectUpload (directUploadPhase (Some boom)) (started false)).
  set (s2 := phaseReturned UrlImport None s1).
  set (s3 := phaseReturned ResumableUpload None s2).
  apply (rtc_l _ _ s2).
  { apply step_phase; [reflexivity|].
    apply (returns_urlImport vodImportUrl (inl zeroDurationAsset)
             (fun _ => inl {| Task_ID := "task" |}) (fun _ => None)). }
  apply (rtc_l _ _ s3).
  { apply step_phase; [reflexivity|].
    apply (returns_resumableUpload vodImportUrl None). }
  apply rtc_once. apply step_wait; [|reflexivity].
  intros p. destruct p; discriminate.
Qed.

Lemma Start_returns_a_phase_error_witness :
  allReturned failedRun
  /\ (Some (Errorf_w "error in direct upload task: " boom) = None
      <-> forall p, phases failedRun p = Some None)
  /\ (forall e, Some (Errorf_w "error in direct upload task: " boom) = Some e ->
        (exists p, phases failedRun p = Some (Some e))
        /\ (exists prefix inner, e = Errorf_w prefix inner)
        /\ is_context_Canceled (Some (Errorf_w "error in direct upload task: " boom))
           = false).
Proof.
  apply (Start_returns_a_phase_error "https://example.com/video.mp4" failedRun
           (Some (Errorf_w "error in direct upload task: " boom))).
  - apply failedRun_reachable.
  - reflexivity.
Defined.

Lemma Start_returns_the_first_error_witness :
  Some (Errorf_w "error in direct upload task: " boom)
  = Some (Errorf_w "error in direct upload task: " boom).
Proof.
  apply (Start_returns_the_first_error "https://example.com/video.mp4"
           (started false) failedRun DirectUpload
           (Errorf_w "error in direct upload task: " boom)
           (Some (Errorf_w "error in direct upload task: " boom))).
  - apply reachable_started.
  - discriminate.
  - reflexivity.
  - apply (returns_directUpload "https://example.com/video.mp4" (Some boom)).
  - apply failedRun_steps.
  - reflexivity.
Defined.

Lemma Start_result_is_final_witness :
  result (relay failedRun) = Some (Some (Errorf_w "error in direct upload task: " boom))
  /\ (forall p, phases (relay failedRun) p = phases failedRun p)
  /\ errgroup.err (eg (relay failedRun)) = errgroup.err (eg failedRun)
  /\ Done (relay failedRun) = true.
Proof.
  apply (Start_result_is_final "https://example.com/video.mp4" failedRun
           (relay failedRun) (Some (Errorf_w "error in direct upload task: " boom))).
  - apply failedRun_reachable.
  - reflexivity.
  - apply rtc_once. apply step_relay; reflexivity.
Defined.

Lemma Start_releases_the_waiting_goroutine_witness :
  (relayed failedRun = true /\ Done failedRun = true)
  \/ (relayed failedRun = false
      /\ step "https://example.com/video.mp4" failedRun (relay failedRun)
      /\ Done (relay failedRun) = true).
Proof.
  apply (Start_releases_the_waiting_goroutine "https://example.com/video.mp4" failedRun).
  - apply failedRun_reachable.
  - right. left. discriminate.
Defined.
